(** * DPorch: the guest interop bridge

    A shallow embedding of the Python side of DPorch's bridge and of the
    scripts that run through it:

    - [src/DPorch.Runtime/Python/Code/pickle_serialize.py]   ([serialize])
    - [src/DPorch.Runtime/Python/Code/pickle_deserialize.py] ([deserialize])
    - [examples/iteration_rate_limiter.py]                   ([step])
    - [tests/.../PythonGILTestScripts/test_functions.py]     (the test module)

    Python exceptions are explicit: a computation that may raise returns a
    [result]. Module-level variables are explicit state, and what a script
    does to the world ([print], [time.sleep]) is a trace of events.

    [pickle] is the guest runtime's library; [Pickle] models its protocol 4
    on the values of [value]. The call gate, the resolver and the invoker
    are host code; [Bridge] models them from the specification.
    [examples/end_close_sock/end_close_sock.py] talks to a remote echo
    server; of it only the socket object appears here, as the value that
    has no encoding. *)

From Stdlib Require Import ZArith Lia List Bool.
From Stdlib Require Import Strings.String Strings.Ascii Strings.Byte.
From Stdlib Require Import Numbers.DecimalString.
From stdpp Require Import base tactics option list strings gmap.

Set Warnings "-register-all".

Local Open Scope string_scope.
Local Open Scope list_scope.
Local Open Scope Z_scope.

(** ** Exceptions and results *)

(** A raised Python exception: the name of its class and [str(e)]. *)
Record exn := Exn { exn_kind : string; exn_message : string }.

Inductive result (A : Type) : Type :=
| Ok (a : A)
| Raise (e : exn).
Arguments Ok {A} a.
Arguments Raise {A} e.

#[global] Instance result_ret : MRet result := fun _ a => Ok a.
#[global] Instance result_bind : MBind result := fun _ _ f m =>
  match m with
  | Ok a => f a
  | Raise e => Raise e
  end.

Definition is_ok {A} (r : result A) : bool :=
  match r with Ok _ => true | Raise _ => false end.

(** Python [bytes]. *)
Abbreviation bytes := (list byte).

#[global] Instance byte_eq_dec : EqDecision byte := Byte.byte_eq_dec.

(** ** Python dictionaries

    A [dict] keeps its items in insertion order and holds each key once.
    Storing under a key that is present replaces the value in place; storing
    under a new key appends the item. *)

Section Dict.
Context {K V : Type} `{EqDecision K}.

Definition pydict := list (K * V).

Definition dict_empty : pydict := [].

Definition dict_items (d : pydict) : list (K * V) := d.

Definition dict_keys (d : pydict) : list K := d.*1.

Fixpoint dict_get (k : K) (d : pydict) : option V :=
  match d with
  | [] => None
  | (k', v) :: d' => if decide (k = k') then Some v else dict_get k d'
  end.

Fixpoint dict_set (k : K) (v : V) (d : pydict) : pydict :=
  match d with
  | [] => [(k, v)]
  | (k', v') :: d' =>
      if decide (k = k') then (k', v) :: d' else (k', v') :: dict_set k v d'
  end.

(** What a [dict] object guarantees about its keys. *)
Definition dict_wf (d : pydict) : Prop := NoDup (dict_keys d).
End Dict.
Arguments pydict : clear implicits.

(** ** The object codec

    [pickle.dumps] and [pickle.loads] belong to the guest runtime's library,
    not to the repository; the codec is written over any pair of them. *)

Section Codec.
Context {Value : Type}.
Variable pickle_dumps : Value -> result bytes.
Variable pickle_loads : bytes -> result Value.

(** [pickle_serialize.py]: [return pickle.dumps(obj)]. *)
Definition serialize (obj : Value) : result bytes :=
  pickle_dumps obj.

(** [pickle_deserialize.py]: the body of the [for] loop, run over the
    remaining items with the dictionary [res] (the source's [result]) built
    so far. An
    exception raised by [pickle.loads] leaves the loop and the function. *)
Fixpoint deserialize_loop (items : list (string * bytes))
    (res : pydict string Value) : result (pydict string Value) :=
  match items with
  | [] => Ok res
  | (source, data) :: items' =>
      obj ← pickle_loads data;
      deserialize_loop items' (dict_set source obj res)
  end.

Definition deserialize (source_msg_map : pydict string bytes)
    : result (pydict string Value) :=
  deserialize_loop (dict_items source_msg_map) dict_empty.

(** The reading of the specification: every channel is decoded on its
    own, and the mapping that comes back holds, for each channel, the
    outcome of decoding that channel's payload. *)
Definition decodes_per_channel (source_msg_map : pydict string bytes)
    (outcomes : pydict string (result Value)) : Prop :=
  dict_keys outcomes = dict_keys source_msg_map /\
  forall source data, (source, data) ∈ source_msg_map ->
    dict_get source outcomes = Some (pickle_loads data).

(** The mapping [deserialize] returns, seen as per-channel outcomes. *)
Definition outcomes_of (r : pydict string Value)
    : pydict string (result Value) :=
  prod_map id Ok <$> r.

Definition decodes_independently (source_msg_map : pydict string bytes) : Prop :=
  exists r, deserialize source_msg_map = Ok r /\
            decodes_per_channel source_msg_map (outcomes_of r).
End Codec.

(** ** Bytes and fixed-width integers *)

Definition byte_to_Z (b : byte) : Z := Z.of_N (Byte.to_N b).

(** The byte holding [z mod 256]. *)
Definition byte_of_Z (z : Z) : byte :=
  match Byte.of_N (Z.to_N (z mod 256)) with
  | Some b => b
  | None => x00
  end.

(** [struct.pack] of an unsigned little-endian integer of [n] bytes. *)
Fixpoint le_bytes (n : nat) (x : Z) : bytes :=
  match n with
  | O => []
  | S n' => byte_of_Z x :: le_bytes n' (x / 256)
  end.

(** [int.from_bytes(bs, 'little')]. *)
Fixpoint le_int (bs : bytes) : Z :=
  match bs with
  | [] => 0
  | b :: bs' => byte_to_Z b + 256 * le_int bs'
  end.

(** [int.from_bytes(bs, 'little', signed=True)]. *)
Definition le_int_signed (bs : bytes) : Z :=
  let u := le_int bs in
  if 2 * u <? 256 ^ Z.of_nat (length bs) then u
  else u - 256 ^ Z.of_nat (length bs).

(** Big-endian, as [struct.pack('>d', x)] lays out a double. *)
Definition be_bytes (n : nat) (x : Z) : bytes := rev (le_bytes n x).
Definition be_int (bs : bytes) : Z := le_int (rev bs).

(** [PY_SSIZE_T_MAX] on a 64-bit build: the largest length of an object. *)
Definition PY_SSIZE_T_MAX : Z := 2 ^ 63 - 1.

(** ** Guest values

    The values of the guest runtime that the development covers: [None],
    [bool], [int], [float], [str], [bytes], [tuple], [list], and an open
    socket (the [sock] of [examples/end_close_sock/end_close_sock.py]) as
    the resource handle that has no encoding. Values are trees: no object is
    reachable twice, and no container holds itself.

    A [float] is its IEEE 754 binary64 image, a 64-bit integer. A [str] is
    its UTF-8 image (with Python's [surrogatepass], which makes the image of
    every [str] unique). A socket is known by its identity. *)
Inductive value : Type :=
| VNone
| VBool (b : bool)
| VInt (n : Z)
| VFloat (bits : Z)
| VStr (s : string)
| VBytes (bs : bytes)
| VTuple (items : list value)
| VList (items : list value)
| VSocket (oid : nat).

(** *** binary64 *)

Definition f64_exp (bits : Z) : Z := Z.land (Z.shiftr bits 52) 2047.
Definition f64_frac (bits : Z) : Z := Z.land bits (2 ^ 52 - 1).
Definition f64_sign (bits : Z) : bool := Z.testbit bits 63.

Definition f64_is_nan (bits : Z) : bool :=
  (f64_exp bits =? 2047) && negb (f64_frac bits =? 0).

Definition f64_is_zero (bits : Z) : bool :=
  (f64_exp bits =? 0) && (f64_frac bits =? 0).

(** [x == y] on floats: a NaN equals nothing, the two zeros are equal. *)
Definition f64_eq (x y : Z) : bool :=
  negb (f64_is_nan x) && negb (f64_is_nan y) &&
  ((x =? y) || (f64_is_zero x && f64_is_zero y)).

(** The value of a finite float, times [2 ^ 1074] (an integer). *)
Definition f64_scaled (bits : Z) : option Z :=
  let m :=
    if f64_exp bits =? 0 then f64_frac bits
    else (2 ^ 52 + f64_frac bits) * 2 ^ (f64_exp bits - 1) in
  if f64_exp bits =? 2047 then None
  else Some (if f64_sign bits then - m else m).

(** [n == x] for an int and a float: Python compares the exact values. *)
Definition int_f64_eq (n : Z) (bits : Z) : bool :=
  match f64_scaled bits with
  | Some s => n * 2 ^ 1074 =? s
  | None => false
  end.

(** *** UTF-8 *)

Definition is_cont (b : byte) : bool :=
  (128 <=? byte_to_Z b) && (byte_to_Z b <=? 191).

Definition in_range (lo hi : Z) (b : byte) : bool :=
  (lo <=? byte_to_Z b) && (byte_to_Z b <=? hi).

(** Whether [bs] is the image of a [str]: what
    [bs.decode('utf-8', 'surrogatepass')] accepts. [fuel] bounds the number
    of characters. *)
Fixpoint utf8_valid_fuel (fuel : nat) (bs : bytes) : bool :=
  match fuel with
  | O => match bs with [] => true | _ => false end
  | S fuel' =>
      match bs with
      | [] => true
      | b0 :: r0 =>
          let z := byte_to_Z b0 in
          if z <? 128 then utf8_valid_fuel fuel' r0
          else if (194 <=? z) && (z <=? 223) then
            match r0 with
            | b1 :: r1 => is_cont b1 && utf8_valid_fuel fuel' r1
            | _ => false
            end
          else if (224 <=? z) && (z <=? 239) then
            match r0 with
            | b1 :: b2 :: r2 =>
                (if z =? 224 then in_range 160 191 b1 else is_cont b1)
                && is_cont b2 && utf8_valid_fuel fuel' r2
            | _ => false
            end
          else if (240 <=? z) && (z <=? 244) then
            match r0 with
            | b1 :: b2 :: b3 :: r3 =>
                (if z =? 240 then in_range 144 191 b1
                 else if z =? 244 then in_range 128 143 b1
                 else is_cont b1)
                && is_cont b2 && is_cont b3 && utf8_valid_fuel fuel' r3
            | _ => false
            end
          else false
      end
  end.

Definition utf8_valid (bs : bytes) : bool := utf8_valid_fuel (length bs) bs.

(** *** Values that exist

    Not every term of type [value] is a guest object: a float has 64 bits,
    a [str] is valid UTF-8, and no object is longer than [PY_SSIZE_T_MAX]. *)
Fixpoint value_ok (v : value) : bool :=
  match v with
  | VNone | VBool _ | VInt _ | VSocket _ => true
  | VFloat bits => (0 <=? bits) && (bits <? 2 ^ 64)
  | VStr s =>
      utf8_valid (list_byte_of_string s) &&
      (Z.of_nat (length (list_byte_of_string s)) <=? PY_SSIZE_T_MAX)
  | VBytes bs => Z.of_nat (length bs) <=? PY_SSIZE_T_MAX
  | VTuple items | VList items =>
      (fix all_ok (vs : list value) : bool :=
         match vs with
         | [] => true
         | v' :: vs' => value_ok v' && all_ok vs'
         end) items
  end.

(** *** Equality of the guest runtime, [a == b]

    [bool] is a subtype of [int], and numbers compare by value across
    [bool], [int] and [float]. Sequences compare item by item. Sockets, like
    every object without an [__eq__] of its own, compare by identity. The two
    values are taken to share no object (as a value and its decoded copy
    do), so the identity shortcut of sequence comparison never applies. *)

Inductive number : Type :=
| NInt (n : Z)
| NFloat (bits : Z).

Definition as_number (v : value) : option number :=
  match v with
  | VBool b => Some (NInt (if b then 1 else 0))
  | VInt n => Some (NInt n)
  | VFloat bits => Some (NFloat bits)
  | _ => None
  end.

Definition number_eq (x y : number) : bool :=
  match x, y with
  | NInt n, NInt m => n =? m
  | NFloat a, NFloat b => f64_eq a b
  | NInt n, NFloat b => int_f64_eq n b
  | NFloat a, NInt m => int_f64_eq m a
  end.

Fixpoint py_eq (a b : value) : bool :=
  match as_number a, as_number b with
  | Some x, Some y => number_eq x y
  | Some _, None | None, Some _ => false
  | None, None =>
      let seq_eq :=
        fix seq_eq (xs ys : list value) : bool :=
          match xs, ys with
          | [], [] => true
          | x :: xs', y :: ys' => py_eq x y && seq_eq xs' ys'
          | _, _ => false
          end in
      match a, b with
      | VNone, VNone => true
      | VStr s, VStr t => bool_decide (s = t)
      | VBytes s, VBytes t => bool_decide (s = t)
      | VTuple xs, VTuple ys => seq_eq xs ys
      | VList xs, VList ys => seq_eq xs ys
      | VSocket i, VSocket j => bool_decide (i = j)
      | _, _ => false
      end
  end.

(** Whether a NaN occurs in a value. *)
Fixpoint has_nan (v : value) : bool :=
  match v with
  | VFloat bits => f64_is_nan bits
  | VTuple items | VList items =>
      (fix any_nan (vs : list value) : bool :=
         match vs with
         | [] => false
         | v' :: vs' => has_nan v' || any_nan vs'
         end) items
  | _ => false
  end.

(** [d1 == d2] on the mappings [deserialize] returns: the same keys, and
    equal values under each key. *)
Definition mapping_eq (d1 d2 : pydict string value) : bool :=
  (length d1 =? length d2)%nat &&
  forallb (fun '(k, v) =>
             match dict_get k d2 with
             | Some v' => py_eq v v'
             | None => false
             end) d1.

(** ** The guest runtime's [pickle], protocol 4

    A model of the standard library's [pickle] (it is not part of the
    repository) on the values above: what [pickle.dumps] writes with the
    default protocol 4, and how [pickle.loads] runs a payload on its stack
    machine. Exceptions and their messages follow CPython's [_pickle].

    What the model leaves out, both ways:
    - [dumps] writes its argument as a tree. The library writes a [BINGET]
      where an object occurs a second time; which objects are one and the
      same is not part of a [value].
    - [dumps] puts the whole payload in one frame. The library opens a new
      frame once the current one has passed 64 KiB; [loads] reads either.
    - [loads] knows the opcodes that [dumps] of these values can produce.
      On any other opcode of pickle, and on a [BINGET] of a list (an alias
      of an object that can still change), it stops with [beyond_model],
      which is not an exception of Python.
    - The recursion limit of the interpreter. *)

Module Pickle.

Inductive opcode : Type :=
| MARK | STOP | BININT | BININT1 | BININT2 | NONE | BINUNICODE
| APPEND | APPENDS | BINGET | LONG_BINGET | EMPTY_LIST | TUPLE
| EMPTY_TUPLE | BINFLOAT
| PROTO | TUPLE1 | TUPLE2 | TUPLE3 | NEWTRUE | NEWFALSE | LONG1 | LONG4
| BINBYTES | SHORT_BINBYTES
| SHORT_BINUNICODE | BINUNICODE8 | BINBYTES8 | MEMOIZE | FRAME.

Definition byte_of_opcode (o : opcode) : byte :=
  match o with
  | MARK => x28 | STOP => x2e | BININT => x4a | BININT1 => x4b
  | BININT2 => x4d | NONE => x4e | BINUNICODE => x58 | APPEND => x61
  | APPENDS => x65 | BINGET => x68 | LONG_BINGET => x6a
  | EMPTY_LIST => x5d | TUPLE => x74 | EMPTY_TUPLE => x29
  | BINFLOAT => x47
  | PROTO => x80 | TUPLE1 => x85 | TUPLE2 => x86 | TUPLE3 => x87
  | NEWTRUE => x88 | NEWFALSE => x89 | LONG1 => x8a | LONG4 => x8b
  | BINBYTES => x42 | SHORT_BINBYTES => x43
  | SHORT_BINUNICODE => x8c | BINUNICODE8 => x8d | BINBYTES8 => x8e
  | MEMOIZE => x94 | FRAME => x95
  end.

(** What a byte is, read as a load key. *)
Inductive load_key : Type :=
| Known (o : opcode)
| Unmodelled
| Invalid.

Definition key_of_byte (b : byte) : load_key :=
  match b with
  | x28 => Known MARK | x2e => Known STOP | x4a => Known BININT
  | x4b => Known BININT1 | x4d => Known BININT2 | x4e => Known NONE
  | x58 => Known BINUNICODE | x61 => Known APPEND | x65 => Known APPENDS
  | x68 => Known BINGET | x6a => Known LONG_BINGET
  | x5d => Known EMPTY_LIST | x74 => Known TUPLE
  | x29 => Known EMPTY_TUPLE | x47 => Known BINFLOAT
  | x80 => Known PROTO | x85 => Known TUPLE1 | x86 => Known TUPLE2
  | x87 => Known TUPLE3 | x88 => Known NEWTRUE | x89 => Known NEWFALSE
  | x8a => Known LONG1 | x8b => Known LONG4
  | x42 => Known BINBYTES | x43 => Known SHORT_BINBYTES
  | x8c => Known SHORT_BINUNICODE | x8d => Known BINUNICODE8
  | x8e => Known BINBYTES8 | x94 => Known MEMOIZE | x95 => Known FRAME
  (* POP POP_MARK DUP FLOAT INT LONG PERSID BINPERSID REDUCE STRING
     BINSTRING SHORT_BINSTRING UNICODE BUILD GLOBAL DICT EMPTY_DICT GET
     INST LIST OBJ PUT BINPUT LONG_BINPUT SETITEM SETITEMS *)
  | x30 | x31 | x32 | x46 | x49 | x4c | x50 | x51 | x52 | x53 | x54
  | x55 | x56 | x62 | x63 | x64 | x7d | x67 | x69 | x6c | x6f | x70
  | x71 | x72 | x73 | x75
  (* NEWOBJ EXT1 EXT2 EXT4 EMPTY_SET ADDITEMS FROZENSET NEWOBJ_EX
     STACK_GLOBAL BYTEARRAY8 NEXT_BUFFER READONLY_BUFFER *)
  | x81 | x82 | x83 | x84 | x8f | x90 | x91 | x92 | x93 | x96 | x97
  | x98 => Unmodelled
  | _ => Invalid
  end.

Definition op (o : opcode) : byte := byte_of_opcode o.

Definition HIGHEST_PROTOCOL : Z := 5.
Definition DEFAULT_PROTOCOL : Z := 4.
Definition BATCHSIZE : nat := 1000.
Definition FRAME_SIZE_MIN : nat := 4.

(** *** Pickler *)

Definition bit_length (x : Z) : Z :=
  if x =? 0 then 0 else Z.log2 (Z.abs x) + 1.

(** [pickle.encode_long]: the shortest two's-complement little-endian
    image of [x]. *)
Definition encode_long (x : Z) : bytes :=
  if x =? 0 then []
  else
    let nbytes := Z.to_nat (Z.shiftr (bit_length x) 3 + 1) in
    let result := le_bytes nbytes x in
    if (x <? 0) && (1 <? nbytes)%nat
       && (byte_to_Z (nth (nbytes - 1) result x00) =? 255)
       && negb (Z.land (byte_to_Z (nth (nbytes - 2) result x00)) 128 =? 0)
    then take (nbytes - 1) result
    else result.

Definition save_long (obj : Z) : result bytes :=
  if (0 <=? obj) && (obj <=? 255) then
    Ok (op BININT1 :: le_bytes 1 obj)
  else if (0 <=? obj) && (obj <=? 65535) then
    Ok (op BININT2 :: le_bytes 2 obj)
  else if (-2147483648 <=? obj) && (obj <=? 2147483647) then
    Ok (op BININT :: le_bytes 4 obj)
  else
    let encoded := encode_long obj in
    let n := Z.of_nat (length encoded) in
    if n <? 256 then Ok (op LONG1 :: le_bytes 1 n ++ encoded)
    else if n <=? 2147483647 then Ok (op LONG4 :: le_bytes 4 n ++ encoded)
    else Raise (Exn "OverflowError" "int too large to pickle").

Definition save_float (bits : Z) : bytes :=
  op BINFLOAT :: be_bytes 8 bits.

Definition save_bytes (obj : bytes) : bytes :=
  let n := Z.of_nat (length obj) in
  (if n <=? 255 then op SHORT_BINBYTES :: le_bytes 1 n
   else if 4294967295 <? n then op BINBYTES8 :: le_bytes 8 n
   else op BINBYTES :: le_bytes 4 n)
  ++ obj ++ [op MEMOIZE].

Definition save_str (obj : string) : bytes :=
  let encoded := list_byte_of_string obj in
  let n := Z.of_nat (length encoded) in
  (if n <=? 255 then op SHORT_BINUNICODE :: le_bytes 1 n
   else if 4294967295 <? n then op BINUNICODE8 :: le_bytes 8 n
   else op BINUNICODE :: le_bytes 4 n)
  ++ encoded ++ [op MEMOIZE].

(** [_batch_appends], on the items already written out one by one: the
    loop takes up to [BATCHSIZE] items at a time and stops after a batch
    that is not full. *)
Fixpoint batch_appends_fuel (fuel : nat) (items : list bytes) : bytes :=
  match fuel with
  | O => []
  | S fuel' =>
      let tmp := take BATCHSIZE items in
      let n := length tmp in
      (if (1 <? n)%nat then op MARK :: concat tmp ++ [op APPENDS]
       else if (0 <? n)%nat then concat tmp ++ [op APPEND]
       else [])
      ++ (if (n <? BATCHSIZE)%nat then []
          else batch_appends_fuel fuel' (drop BATCHSIZE items))
  end.

Definition batch_appends (items : list bytes) : bytes :=
  batch_appends_fuel (S (length items)) items.

Definition save_tuple (items : list bytes) : bytes :=
  match items with
  | [] => [op EMPTY_TUPLE]
  | [_] => concat items ++ [op TUPLE1; op MEMOIZE]
  | [_; _] => concat items ++ [op TUPLE2; op MEMOIZE]
  | [_; _; _] => concat items ++ [op TUPLE3; op MEMOIZE]
  | _ => op MARK :: concat items ++ [op TUPLE; op MEMOIZE]
  end.

Definition save_list (items : list bytes) : bytes :=
  op EMPTY_LIST :: op MEMOIZE :: batch_appends items.

(** [Pickler.save]: the bytes written for [obj]. *)
Fixpoint save (obj : value) : result bytes :=
  let save_all :=
    fix save_all (vs : list value) : result (list bytes) :=
      match vs with
      | [] => Ok []
      | v :: vs' =>
          e ← save v;
          es ← save_all vs';
          Ok (e :: es)
      end in
  match obj with
  | VNone => Ok [op NONE]
  | VBool b => Ok [op (if b then NEWTRUE else NEWFALSE)]
  | VInt n => save_long n
  | VFloat bits => Ok (save_float bits)
  | VStr s => Ok (save_str s)
  | VBytes bs => Ok (save_bytes bs)
  | VTuple items => es ← save_all items; Ok (save_tuple es)
  | VList items => es ← save_all items; Ok (save_list es)
  | VSocket _ => Raise (Exn "TypeError" "cannot pickle 'socket' object")
  end.

(** The frame around the opcodes: a payload shorter than
    [FRAME_SIZE_MIN] goes out bare. *)
Definition frame (data : bytes) : bytes :=
  if (length data <? FRAME_SIZE_MIN)%nat then data
  else op FRAME :: le_bytes 8 (Z.of_nat (length data)) ++ data.

(** [pickle.dumps(obj)]. The payload is a [bytes] object, and the
    pickler runs out of memory before it writes one that is longer than
    an object can be. *)
Definition dumps (obj : value) : result bytes :=
  data ← save obj;
  let payload :=
    op PROTO :: byte_of_Z DEFAULT_PROTOCOL :: frame (data ++ [op STOP]) in
  if PY_SSIZE_T_MAX <? Z.of_nat (length payload) then
    Raise (Exn "MemoryError" "")
  else Ok payload.

(** *** Unpickler *)

Definition UnpicklingError (msg : string) : exn :=
  Exn "UnpicklingError" msg.

(** Not an exception of Python: the payload leaves the modelled part of
    pickle. *)
Definition beyond_model : exn :=
  Exn "(outside the model)" "pickle opcode outside the modelled fragment".

Definition decimal (z : Z) : string :=
  NilZero.string_of_int (Z.to_int z).

Definition hex_digit (z : Z) : ascii :=
  ascii_of_nat (Z.to_nat (if z <? 10 then 48 + z else 87 + z)).

(** The message of [_pickle]'s default case. *)
Definition invalid_load_key (b : byte) : exn :=
  let c := byte_to_Z b in
  UnpicklingError
    (if (32 <=? c) && (c <=? 126) && negb (c =? 39) && negb (c =? 92) then
       ("invalid load key, '" ++ String (ascii_of_byte b) "'.")%string
     else
       ("invalid load key, '\x" ++
        String (hex_digit (c / 16))
          (String (hex_digit (c mod 16)) "'."))%string).

(** The value stack (its top is the head of the list), the stacks set
    aside by [MARK], and the memo, which [MEMOIZE] fills in order. *)
Record unpickler := Unpickler {
  stack : list value;
  metastack : list (list value);
  memo : list value
}.

Definition initial : unpickler :=
  {| stack := []; metastack := []; memo := [] |}.

Definition push (v : value) (u : unpickler) : unpickler :=
  {| stack := v :: stack u; metastack := metastack u; memo := memo u |}.

Definition stack_underflow (u : unpickler) : exn :=
  match metastack u with
  | [] => UnpicklingError "unpickling stack underflow"
  | _ :: _ => UnpicklingError "unexpected MARK found"
  end.

Definition pop (u : unpickler) : result (value * unpickler) :=
  match stack u with
  | v :: st =>
      Ok (v, {| stack := st; metastack := metastack u; memo := memo u |})
  | [] => Raise (stack_underflow u)
  end.

(** The items above the last mark, oldest first, and the machine with
    that mark gone. *)
Definition pop_mark (u : unpickler) : result (list value * unpickler) :=
  match metastack u with
  | st :: ms =>
      Ok (rev (stack u), {| stack := st; metastack := ms; memo := memo u |})
  | [] => Raise (UnpicklingError "could not find MARK")
  end.

Definition read (n : nat) (data : bytes) : result (bytes * bytes) :=
  if (length data <? n)%nat then
    Raise (UnpicklingError "pickle data was truncated")
  else Ok (take n data, drop n data).

(** An operand that is a length: [nbytes] bytes, little-endian, at most
    [PY_SSIZE_T_MAX]. *)
Definition read_size (what : string) (nbytes : nat) (data : bytes)
    : result (nat * bytes) :=
  '(s, data) ← read nbytes data;
  if PY_SSIZE_T_MAX <? le_int s then
    Raise (Exn "OverflowError"
             (what ++ " exceeds system's maximum size of " ++
              decimal PY_SSIZE_T_MAX ++ " bytes")%string)
  else Ok (Z.to_nat (le_int s), data).

Definition type_name (v : value) : string :=
  match v with
  | VNone => "NoneType" | VBool _ => "bool" | VInt _ => "int"
  | VFloat _ => "float" | VStr _ => "str" | VBytes _ => "bytes"
  | VTuple _ => "tuple" | VList _ => "list" | VSocket _ => "socket"
  end.

(** [do_append]: extend the list under [items] by them. *)
Definition do_append (items : list value) (u : unpickler)
    : result unpickler :=
  match stack u with
  | [] => Raise (stack_underflow u)
  | target :: st =>
      match items with
      | [] => Ok u
      | _ :: _ =>
          match target with
          | VList l =>
              Ok {| stack := VList (l ++ items) :: st;
                    metastack := metastack u; memo := memo u |}
          | _ =>
              Raise (Exn "AttributeError"
                       ("'" ++ type_name target ++
                        "' object has no attribute 'append'")%string)
          end
      end
  end.

Definition load_get (idx : nat) (u : unpickler) : result unpickler :=
  match memo u !! idx with
  | None =>
      Raise (UnpicklingError
               ("Memo value not found at index " ++
                decimal (Z.of_nat idx))%string)
  | Some (VList _) => Raise beyond_model
  | Some v => Ok (push v u)
  end.

Definition load_counted_tuple (len : nat) (u : unpickler)
    : result unpickler :=
  if (length (stack u) <? len)%nat then Raise (stack_underflow u)
  else
    Ok {| stack := VTuple (rev (take len (stack u))) :: drop len (stack u);
          metastack := metastack u; memo := memo u |}.

Definition load_str (u : unpickler) (size : nat) (data : bytes)
    : result (unpickler * bytes) :=
  '(s, data) ← read size data;
  if utf8_valid s then Ok (push (VStr (string_of_list_byte s)) u, data)
  else Raise (Exn "UnicodeDecodeError" "'utf-8' codec can't decode bytes").

Definition load_bytes (u : unpickler) (size : nat) (data : bytes)
    : result (unpickler * bytes) :=
  '(s, data) ← read size data;
  Ok (push (VBytes s) u, data).

(** One opcode: the machine and the input that follow it, or the value
    that [STOP] returns. *)
Inductive outcome : Type :=
| Continue (u : unpickler) (data : bytes)
| Stop (v : value).

Definition continue (r : result (unpickler * bytes)) : result outcome :=
  '(u, data) ← r; Ok (Continue u data).

Definition dispatch (o : opcode) (u : unpickler) (data : bytes)
    : result outcome :=
  match o with
  | PROTO =>
      '(s, data) ← read 1 data;
      if HIGHEST_PROTOCOL <? le_int s then
        Raise (Exn "ValueError"
                 ("unsupported pickle protocol: " ++ decimal (le_int s))%string)
      else Ok (Continue u data)
  | FRAME =>
      '(s, data) ← read 8 data;
      if PY_SSIZE_T_MAX <? le_int s then
        Raise (Exn "OverflowError"
                 ("FRAME length exceeds system's maximum of " ++
                  decimal PY_SSIZE_T_MAX ++ " bytes")%string)
      else
        _ ← read (Z.to_nat (le_int s)) data;
        Ok (Continue u data)
  | STOP => '(v, _) ← pop u; Ok (Stop v)
  | NONE => Ok (Continue (push VNone u) data)
  | NEWTRUE => Ok (Continue (push (VBool true) u) data)
  | NEWFALSE => Ok (Continue (push (VBool false) u) data)
  | BININT =>
      '(s, data) ← read 4 data;
      Ok (Continue (push (VInt (le_int_signed s)) u) data)
  | BININT1 =>
      '(s, data) ← read 1 data;
      Ok (Continue (push (VInt (le_int s)) u) data)
  | BININT2 =>
      '(s, data) ← read 2 data;
      Ok (Continue (push (VInt (le_int s)) u) data)
  | LONG1 =>
      '(s, data) ← read 1 data;
      '(s, data) ← read (Z.to_nat (le_int s)) data;
      Ok (Continue (push (VInt (le_int_signed s)) u) data)
  | LONG4 =>
      '(s, data) ← read 4 data;
      if le_int_signed s <? 0 then
        Raise (UnpicklingError "LONG pickle has negative byte count")
      else
        '(s, data) ← read (Z.to_nat (le_int_signed s)) data;
        Ok (Continue (push (VInt (le_int_signed s)) u) data)
  | BINFLOAT =>
      '(s, data) ← read 8 data;
      Ok (Continue (push (VFloat (be_int s)) u) data)
  | SHORT_BINUNICODE =>
      continue ('(n, data) ← read_size "BINUNICODE" 1 data; load_str u n data)
  | BINUNICODE =>
      continue ('(n, data) ← read_size "BINUNICODE" 4 data; load_str u n data)
  | BINUNICODE8 =>
      continue ('(n, data) ← read_size "BINUNICODE" 8 data; load_str u n data)
  | SHORT_BINBYTES =>
      continue ('(n, data) ← read_size "BINBYTES" 1 data; load_bytes u n data)
  | BINBYTES =>
      continue ('(n, data) ← read_size "BINBYTES" 4 data; load_bytes u n data)
  | BINBYTES8 =>
      continue ('(n, data) ← read_size "BINBYTES" 8 data; load_bytes u n data)
  | EMPTY_TUPLE => Ok (Continue (push (VTuple []) u) data)
  | TUPLE1 => u ← load_counted_tuple 1 u; Ok (Continue u data)
  | TUPLE2 => u ← load_counted_tuple 2 u; Ok (Continue u data)
  | TUPLE3 => u ← load_counted_tuple 3 u; Ok (Continue u data)
  | MARK =>
      Ok (Continue {| stack := []; metastack := stack u :: metastack u;
                      memo := memo u |} data)
  | TUPLE =>
      '(items, u) ← pop_mark u;
      Ok (Continue (push (VTuple items) u) data)
  | EMPTY_LIST => Ok (Continue (push (VList []) u) data)
  | APPEND =>
      if (length (stack u) <? 2)%nat then Raise (stack_underflow u)
      else
        '(v, u) ← pop u;
        u ← do_append [v] u;
        Ok (Continue u data)
  | APPENDS =>
      '(items, u) ← pop_mark u;
      u ← do_append items u;
      Ok (Continue u data)
  | MEMOIZE =>
      match stack u with
      | [] => Raise (stack_underflow u)
      | v :: _ =>
          Ok (Continue {| stack := stack u; metastack := metastack u;
                          memo := memo u ++ [v] |} data)
      end
  | BINGET =>
      '(s, data) ← read 1 data;
      u ← load_get (Z.to_nat (le_int s)) u;
      Ok (Continue u data)
  | LONG_BINGET =>
      '(s, data) ← read 4 data;
      u ← load_get (Z.to_nat (le_int s)) u;
      Ok (Continue u data)
  end.

(** [Unpickler.load]: read a key, run it, until [STOP]. Every opcode
    takes at least its key off the input, so [fuel] above the length of
    the input never runs out. *)
Fixpoint load (fuel : nat) (u : unpickler) (data : bytes) : result value :=
  match fuel with
  | O => Raise (Exn "EOFError" "Ran out of input")
  | S fuel' =>
      match data with
      | [] => Raise (Exn "EOFError" "Ran out of input")
      | key :: data' =>
          match key_of_byte key with
          | Invalid => Raise (invalid_load_key key)
          | Unmodelled => Raise beyond_model
          | Known o =>
              match dispatch o u data' with
              | Raise e => Raise e
              | Ok (Stop v) => Ok v
              | Ok (Continue u' data'') => load fuel' u' data''
              end
          end
      end
  end.

(** The machine [u] on the input [data], with fuel to spare. *)
Definition run (u : unpickler) (data : bytes) : result value :=
  load (S (length data)) u data.

(** [pickle.loads(data)]. *)
Definition loads (data : bytes) : result value :=
  run initial data.

(** The payload [e] makes the unpickler push [v], whatever is on its stack
    and whatever input follows. *)
Definition loads_as (e : bytes) (v : value) : Prop :=
  forall st ms m rest, exists m',
    run (Unpickler st ms m) (e ++ rest) = run (Unpickler (v :: st) ms m') rest.
End Pickle.

(** ** The codec on [pickle] *)

(** The round-trip law as the specification words it: what comes back for
    the serialized form of [v] on channel [c] equals [{c: v}] under the
    guest's [==]. *)
Definition round_trips (c : string) (v : value) : Prop :=
  forall payload, serialize Pickle.dumps v = Ok payload ->
    exists r, deserialize Pickle.loads [(c, payload)] = Ok r /\
              mapping_eq r [(c, v)] = true.

(** A quiet NaN, [float('nan')]. *)
Definition nan : value := VFloat 9221120237041090560.

(** ** Operations of the guest runtime *)

(** The primitives of the guest runtime that the scripts reach and that have
    no definition here: float arithmetic and the text of a value. *)
Class GuestRuntime := {
  (** [x + y] on two floats, on their binary64 images *)
  float_add : Z -> Z -> Z;
  (** [float(n)], which raises [OverflowError] on an [int] too large *)
  int_to_float : Z -> result Z;
  (** [format(x, '')], the text an f-string puts in for [{x}] *)
  py_format : value -> string
}.

Definition dquote : string := String (ascii_of_nat 34) "".

Definition TypeError (msg : string) : exn := Exn "TypeError" msg.

(** [a + b]. Numbers add (a [bool] is an [int]; an [int] next to a [float]
    is converted first); two sequences of one type concatenate. *)
Definition py_add `{GuestRuntime} (a b : value) : result value :=
  match as_number a, as_number b with
  | Some (NInt x), Some (NInt y) => Ok (VInt (x + y))
  | Some (NFloat x), Some (NFloat y) => Ok (VFloat (float_add x y))
  | Some (NInt x), Some (NFloat y) =>
      fx ← int_to_float x; Ok (VFloat (float_add fx y))
  | Some (NFloat x), Some (NInt y) =>
      fy ← int_to_float y; Ok (VFloat (float_add x fy))
  | _, _ =>
      match a, b with
      | VStr s, VStr t => Ok (VStr (s ++ t))
      | VStr _, _ =>
          Raise (TypeError ("can only concatenate str (not " ++ dquote ++
                            Pickle.type_name b ++ dquote ++ ") to str"))
      | VBytes s, VBytes t => Ok (VBytes (s ++ t))
      | VBytes _, _ =>
          Raise (TypeError ("can't concat " ++ Pickle.type_name b ++
                            " to bytes"))
      | VTuple xs, VTuple ys => Ok (VTuple (xs ++ ys))
      | VTuple _, _ =>
          Raise (TypeError ("can only concatenate tuple (not " ++ dquote ++
                            Pickle.type_name b ++ dquote ++ ") to tuple"))
      | VList xs, VList ys => Ok (VList (xs ++ ys))
      | VList _, _ =>
          Raise (TypeError ("can only concatenate list (not " ++ dquote ++
                            Pickle.type_name b ++ dquote ++ ") to list"))
      | _, _ =>
          Raise (TypeError ("unsupported operand type(s) for +: '" ++
                            Pickle.type_name a ++ "' and '" ++
                            Pickle.type_name b ++ "'"))
      end
  end%string.

(** ** Objects of a module

    What a module-level name can be bound to: a value, or a function defined
    with [def]. A function has its name, the number of positional parameters
    it declares, and a body that takes that many arguments (no function of
    the scripts declares a default). *)
Fixpoint nary (n : nat) : Type :=
  match n with
  | O => result value
  | S n' => value -> nary n'
  end.

Record pyfunction := PyFunction {
  func_name : string;
  func_argcount : nat;
  func_body : nary func_argcount
}.

(** The body on [args]; nothing when their number is not the declared one. *)
Fixpoint apply_args (n : nat) : nary n -> list value -> option (result value) :=
  match n with
  | O => fun body args =>
      match args with
      | [] => Some body
      | _ :: _ => None
      end
  | S n' => fun body args =>
      match args with
      | [] => None
      | a :: args' => apply_args n' (body a) args'
      end
  end.

Inductive pyobject : Type :=
| Data (v : value)
| Function (f : pyfunction).

(** [callable(obj)]: no value of the model is. *)
Definition callable (obj : pyobject) : bool :=
  match obj with
  | Function _ => true
  | Data _ => false
  end.

(** ** [tests/.../PythonGILTestScripts/test_functions.py] *)

Module TestFunctions.
Section Defs.
Context `{GuestRuntime}.

Definition no_params : result value :=
  Ok (VStr "no_params_called").

Definition one_param (x : value) : result value :=
  Ok (VStr ("received: " ++ py_format x)).

Definition two_params (a b : value) : result value :=
  py_add a b.

Definition three_params (a b c : value) : result value :=
  ab ← py_add a b; py_add ab c.

Definition returns_none : result value :=
  Ok VNone.

Definition raises_error : result value :=
  Raise (Exn "ValueError" "This is a test error").

Definition not_callable : value := VStr "I am a string".
Definition also_not_callable : value := VInt 42.
Definition list_not_callable : value := VList [VInt 1; VInt 2; VInt 3].

(** The names that the module binds to plain values. *)
Definition attributes : gmap string pyobject :=
  <["not_callable" := Data not_callable]>
  (<["also_not_callable" := Data also_not_callable]>
  (<["list_not_callable" := Data list_not_callable]> ∅)).

(** The namespace of the module once its top-level code has run. *)
Definition namespace : gmap string pyobject :=
  <["no_params" := Function (PyFunction "no_params" 0 no_params)]>
  (<["one_param" := Function (PyFunction "one_param" 1 one_param)]>
  (<["two_params" := Function (PyFunction "two_params" 2 two_params)]>
  (<["three_params" :=
       Function (PyFunction "three_params" 3 three_params)]>
  (<["returns_none" := Function (PyFunction "returns_none" 0 returns_none)]>
  (<["raises_error" := Function (PyFunction "raises_error" 0 raises_error)]>
   attributes))))).
End Defs.
End TestFunctions.

(** ** [examples/iteration_rate_limiter.py] *)

Module RateLimiter.
(** What [step] does to the world outside the module. *)
Inductive event : Type :=
| Print (line : string)
| Sleep (seconds : Z).

#[global] Instance event_eq_dec : EqDecision event.
Proof. solve_decision. Defined.

(** The module-level variable, and the events so far, oldest first. *)
Record state := State {
  did_show_msg : bool;
  trace : list event
}.

(** The module after its top-level code has run: [did_show_msg = False]. *)
Definition initial : state :=
  {| did_show_msg := false; trace := [] |}.

Definition ESC : string := String (ascii_of_nat 27) "".
Definition backslash : string := String (ascii_of_nat 92) "".

Definition note_line : string :=
  ESC ++ "[33mNote:" ++ ESC ++ "[0m Pipeline(s) have been configured with "
  ++ ESC ++ "[36m" ++ dquote ++ "examples" ++ backslash
  ++ "iteration_rate_limiter.py" ++ dquote ++ ESC
  ++ "[0m to limit the iteration rate.".

Definition remove_line : string :=
  "To remove this limiter, locate pipeline configuration(s) containing the rate limiter in the "
  ++ ESC ++ "[1mscripts" ++ ESC
  ++ "[0m property and remove its script path.".

Definition emit (e : event) (st : state) : state :=
  {| did_show_msg := did_show_msg st; trace := trace st ++ [e] |}.

Definition step {A : Type} (input_data : A) (st : state) : A * state :=
  let st :=
    if negb (did_show_msg st) then
      let st := emit (Print note_line) st in
      let st := emit (Print remove_line) st in
      {| did_show_msg := true; trace := trace st |}
    else st in
  let st := emit (Sleep 1) st in
  (input_data, st).

(** One call of [step] after another, on the same module. *)
Fixpoint steps {A : Type} (inputs : list A) (st : state) : list A * state :=
  match inputs with
  | [] => ([], st)
  | x :: inputs' =>
      let '(y, st) := step x st in
      let '(ys, st) := steps inputs' st in
      (y :: ys, st)
  end.

(** How often the branch of the one-time message has run. *)
Definition times_shown (st : state) : nat :=
  length (filter (fun e => e = Print note_line) (trace st)).
End RateLimiter.

(** ** The bridge on the host side

    The call gate, the resolver and the invoker are host code; the test
    module above is what the host's tests run through them. *)

Module Bridge.
(** Modelled from the spec: the host-observable errors of section 7 that
    resolution and invocation return (the host sources that define them
    are not at hand). *)
Inductive bridge_error : Type :=
| NotFoundError
| NotCallableError
| ArityError
| GuestRaisedError (kind message : string).

(** Modelled from the spec: a structured result, "returned as structured
    results to the caller, never as uncontrolled host-process
    termination" (section 7). *)
Inductive outcome (A : Type) : Type :=
| Success (a : A)
| Failure (e : bridge_error).
Arguments Success {A} a.
Arguments Failure {A} e.

(** Modelled from the spec: the bridge's state, which is whether the Call
    Gate's token is out (section 4.2, "at most one token outstanding"),
    together with a log of the callables whose body has been entered,
    oldest first. *)
Record bridge := MkBridge {
  gate_held : bool;
  entered : list string
}.

(** Modelled from the spec: the Call Gate Token (section 3). *)
Inductive token : Type := Token.

(** Modelled from the spec: [acquire() -> Token], which "blocks until
    available" (section 4.2). A caller that finds the gate held gets
    nothing and waits. *)
Definition acquire (b : bridge) : option (token * bridge) :=
  if gate_held b then None
  else Some (Token, {| gate_held := true; entered := entered b |}).

(** Modelled from the spec: [release(Token)] (section 4.2). *)
Definition release (t : token) (b : bridge) : bridge :=
  {| gate_held := false; entered := entered b |}.

(** Modelled from the spec: [resolve(module, name)] (section 4.3), which
    "fails with NotFoundError if name is absent from the module namespace,
    and with NotCallableError if present but not invokable (distinguish by
    a capability check ...)"; the lookup happens "strictly between an
    acquire and its matching release" (section 4.2). *)
Definition resolve (module : gmap string pyobject) (name : string)
    (b : bridge) : option (outcome pyfunction * bridge) :=
  '(tok, b) ← acquire b;
  let r :=
    match module !! name with
    | None => Failure NotFoundError
    | Some obj =>
        if callable obj then
          match obj with
          | Function f => Success f
          | Data _ => Failure NotCallableError
          end
        else Failure NotCallableError
    end in
  Some (r, release tok b).

(** Modelled from the spec: what the invoker makes of the guest's
    outcome (section 4.3): a returned value, [None] included, is a
    success; a raised exception becomes [GuestRaisedError(kind, message)],
    "extracted from the guest's native failure object". *)
Definition translate (r : result value) : outcome value :=
  match r with
  | Ok v => Success v
  | Raise e => Failure (GuestRaisedError (exn_kind e) (exn_message e))
  end.

(** Modelled from the spec: [invoke(CallableReference, positional_args)]
    (section 4.3), "executed under a held Call Gate token: fails with
    ArityError if the callable's declared parameter count is incompatible
    with the number of supplied arguments"; "release occurs on every exit
    path, including when the invoked callable raises" (section 4.2). *)
Definition invoke (f : pyfunction) (positional_args : list value)
    (b : bridge) : option (outcome value * bridge) :=
  '(tok, b) ← acquire b;
  let '(r, b) :=
    match apply_args (func_argcount f) (func_body f) positional_args with
    | None => (Failure ArityError, b)
    | Some guest =>
        (translate guest,
         {| gate_held := gate_held b;
            entered := entered b ++ [func_name f] |})
    end in
  Some (r, release tok b).

(** Modelled from the spec: resolve a name and, if that gives a callable,
    invoke it (sections 4.3 and 4.4, "resolves and invokes"). *)
Definition resolve_and_invoke (module : gmap string pyobject)
    (name : string) (positional_args : list value) (b : bridge)
    : option (outcome value * bridge) :=
  '(r, b) ← resolve module name b;
  match r with
  | Success f => invoke f positional_args b
  | Failure e => Some (Failure e, b)
  end.

(** Modelled from the spec: the bridge before any call, its gate free. *)
Definition idle : bridge := {| gate_held := false; entered := [] |}.
End Bridge.

(** ** Example messages *)

(** The payload of [v], or no bytes where [v] has no encoding. *)
Definition payload_of (v : value) : bytes :=
  match Pickle.dumps v with
  | Ok payload => payload
  | Raise _ => []
  end.

(** [pickle.dumps(3)] and [pickle.dumps(4)]. *)
Definition payload_3 : bytes := Eval vm_compute in payload_of (VInt 3).
Definition payload_4 : bytes := Eval vm_compute in payload_of (VInt 4).

(** [pickle.dumps(float('nan'))]. *)
Definition payload_nan : bytes := Eval vm_compute in payload_of nan.

(** [(3, 'hi', [None, 1.5, b'\x00'], -2**40)] and its payload. *)
Definition sample : value :=
  VTuple [VInt 3; VStr "hi";
          VList [VNone; VFloat 4609434218613702656; VBytes [x00]];
          VInt (- 2 ^ 40)].
Definition payload_sample : bytes := Eval vm_compute in payload_of sample.

(** A message on two channels, the second of which carries no bytes. *)
Definition truncated_msg : pydict string bytes :=
  [("a", payload_3); ("b", [])].

Definition sum_msg : pydict string bytes :=
  [("a", payload_3); ("b", payload_4)].

(** ** Measures used in the properties *)

(** Whether a socket occurs in a value. *)
Fixpoint has_socket (v : value) : bool :=
  match v with
  | VSocket _ => true
  | VTuple items | VList items =>
      (fix any_socket (vs : list value) : bool :=
         match vs with
         | [] => false
         | v' :: vs' => has_socket v' || any_socket vs'
         end) items
  | _ => false
  end.

(** The seconds that the calls of [time.sleep] in a trace add up to. *)
Definition slept (tr : list RateLimiter.event) : Z :=
  foldr (fun e total =>
           match e with
           | RateLimiter.Sleep seconds => seconds + total
           | RateLimiter.Print _ => total
           end) 0 tr.

(** The lines that the calls of [print] in a trace wrote, in order. *)
Definition printed (tr : list RateLimiter.event) : list string :=
  omap (fun e =>
          match e with
          | RateLimiter.Print line => Some line
          | RateLimiter.Sleep _ => None
          end) tr.

(** * Properties *)

(** ** Dictionaries *)

Section DictFacts.
Context {K V : Type} `{EqDecision K}.
Implicit Types (d : pydict K V) (k : K) (v : V).

Lemma dict_set_fresh d k v :
  k ∉ dict_keys d -> dict_set k v d = d ++ [(k, v)].
Proof.
  induction d as [|[k' v'] d IH]; simpl; intros Hk; [done|].
  rewrite not_elem_of_cons in Hk. destruct Hk as [Hne Hk].
  case_decide; [done|]. by rewrite IH.
Qed.

Lemma dict_keys_set_present d k v :
  k ∈ dict_keys d -> dict_keys (dict_set k v d) = dict_keys d.
Proof.
  unfold dict_keys.
  induction d as [|[k' v'] d IH]; simpl; intros Hk.
  - by apply elem_of_nil in Hk.
  - case_decide as Hkk; [done|]. simpl. f_equal. apply IH.
    apply elem_of_cons in Hk as [?|?]; done.
Qed.

Lemma dict_keys_set d k v :
  dict_keys (dict_set k v d) =
  if decide (k ∈ dict_keys d) then dict_keys d else dict_keys d ++ [k].
Proof.
  destruct (decide (k ∈ dict_keys d)) as [Hin|Hnin].
  - by apply dict_keys_set_present.
  - rewrite dict_set_fresh by done. unfold dict_keys. by rewrite fmap_app.
Qed.

Lemma elem_of_dict_keys_set d k v k' :
  k' ∈ dict_keys (dict_set k v d) <-> k' = k \/ k' ∈ dict_keys d.
Proof.
  rewrite dict_keys_set. destruct (decide (k ∈ dict_keys d)).
  - split; [by right | intros [->|]; done].
  - rewrite elem_of_app, list_elem_of_singleton. tauto.
Qed.

Lemma dict_set_wf d k v : dict_wf d -> dict_wf (dict_set k v d).
Proof.
  unfold dict_wf. rewrite dict_keys_set.
  destruct (decide (k ∈ dict_keys d)); [done|].
  intros Hd. apply NoDup_app. split_and!; [done | | apply NoDup_singleton].
  intros x Hx Hx'. apply list_elem_of_singleton in Hx'. by subst.
Qed.

Lemma dict_get_app_fresh d d' k :
  k ∉ dict_keys d -> dict_get k (d ++ d') = dict_get k d'.
Proof.
  induction d as [|[k' v'] d IH]; simpl; [done|].
  rewrite not_elem_of_cons. intros [Hne Hk].
  case_decide; [done|]. by apply IH.
Qed.

Lemma dict_get_elem_of d k v :
  dict_wf d -> (k, v) ∈ d -> dict_get k d = Some v.
Proof.
  unfold dict_wf, dict_keys.
  induction d as [|[k' v'] d IH]; simpl; intros Hwf Hin.
  - by apply elem_of_nil in Hin.
  - apply NoDup_cons in Hwf as [Hk' Hwf].
    apply elem_of_cons in Hin as [Heq|Hin].
    + injection Heq as -> ->. by case_decide.
    + case_decide as Hkk; [|by apply IH].
      subst k'. exfalso. apply Hk'. apply list_elem_of_fmap. by exists (k, v).
Qed.
End DictFacts.

(** ** Bytes and fixed-width integers *)

Lemma byte_to_Z_range b : 0 <= byte_to_Z b < 256.
Proof.
  unfold byte_to_Z. pose proof (Byte.to_N_bounded b). lia.
Qed.

Lemma byte_to_of_Z z : byte_to_Z (byte_of_Z z) = z mod 256.
Proof.
  unfold byte_to_Z, byte_of_Z.
  pose proof (Z.mod_pos_bound z 256 ltac:(lia)) as Hz.
  destruct (Byte.of_N (Z.to_N (z mod 256))) as [b|] eqn:Hb.
  - apply Byte.to_of_N in Hb. rewrite Hb. lia.
  - apply Byte.of_N_None_iff in Hb. lia.
Qed.

Lemma length_le_bytes n x : length (le_bytes n x) = n.
Proof. revert x. induction n; intros x; simpl; [done | by rewrite IHn]. Qed.

Lemma le_int_range bs : 0 <= le_int bs < 256 ^ Z.of_nat (length bs).
Proof.
  induction bs as [|b bs IH]; simpl length; [simpl; lia|].
  rewrite Nat2Z.inj_succ, Z.pow_succ_r by lia. simpl le_int.
  pose proof (byte_to_Z_range b). lia.
Qed.

Lemma le_int_le_bytes n x : le_int (le_bytes n x) = x mod 256 ^ Z.of_nat n.
Proof.
  revert x. induction n as [|n IH]; intros x.
  - simpl. by rewrite Z.mod_1_r.
  - rewrite Nat2Z.inj_succ, Z.pow_succ_r by lia. simpl.
    rewrite byte_to_of_Z, IH. rewrite Z.rem_mul_r; [done | lia | lia].
Qed.

Lemma le_int_le_bytes_small n x :
  0 <= x < 256 ^ Z.of_nat n -> le_int (le_bytes n x) = x.
Proof. intros. rewrite le_int_le_bytes. by apply Z.mod_small. Qed.

Lemma le_int_signed_le_bytes n x :
  - 256 ^ Z.of_nat n <= 2 * x < 256 ^ Z.of_nat n ->
  le_int_signed (le_bytes n x) = x.
Proof.
  intros Hx. unfold le_int_signed.
  rewrite le_int_le_bytes, length_le_bytes.
  set (m := 256 ^ Z.of_nat n) in *.
  assert (0 < m) by (apply Z.pow_pos_nonneg; lia).
  destruct (Z.ltb_spec (2 * (x mod m)) m) as [Hlt|Hge].
  - destruct (Z_lt_le_dec x 0).
    + rewrite <- (Z.mod_add x 1 m) in Hlt by lia.
      rewrite Z.mod_small in Hlt by lia. lia.
    + apply Z.mod_small. lia.
  - destruct (Z_lt_le_dec x 0).
    + rewrite <- (Z.mod_add x 1 m) by lia.
      rewrite Z.mod_small by lia. lia.
    + rewrite Z.mod_small in Hge by lia. lia.
Qed.

Lemma be_int_be_bytes n x :
  0 <= x < 256 ^ Z.of_nat n -> be_int (be_bytes n x) = x.
Proof.
  intros. unfold be_int, be_bytes. rewrite rev_involutive.
  by apply le_int_le_bytes_small.
Qed.

Lemma take_le_bytes k n x :
  (k <= n)%nat -> take k (le_bytes n x) = le_bytes k x.
Proof.
  revert n x. induction k as [|k IH]; intros n x Hk; [done|].
  destruct n as [|n]; [lia|]. simpl. f_equal. apply IH. lia.
Qed.

Lemma nth_le_bytes k n x :
  (k < n)%nat ->
  byte_to_Z (nth k (le_bytes n x) x00) = (x / 256 ^ Z.of_nat k) mod 256.
Proof.
  revert n x. induction k as [|k IH]; intros n x Hk.
  - destruct n; [lia|]. simpl. rewrite byte_to_of_Z. by rewrite Z.div_1_r.
  - destruct n; [lia|]. simpl nth. rewrite IH by lia.
    rewrite Nat2Z.inj_succ, Z.pow_succ_r by lia.
    rewrite Z.div_div; [done | lia |]. apply Z.pow_pos_nonneg; lia.
Qed.

Lemma top_bit b :
  negb (Z.land (byte_to_Z b) 128 =? 0) = (128 <=? byte_to_Z b).
Proof. by destruct b. Qed.

(** ** [pickle]: what [dumps] writes, [loads] reads back *)

Section PickleFacts.
Import Pickle.

Lemma bit_length_bound x :
  x <> 0 -> 0 < bit_length x /\ Z.abs x < 2 ^ bit_length x.
Proof.
  intros Hx. unfold bit_length. rewrite (proj2 (Z.eqb_neq x 0)) by done.
  pose proof (Z.log2_nonneg (Z.abs x)).
  split; [lia|]. apply Z.log2_spec. lia.
Qed.

Lemma pow256 n : 256 ^ Z.of_nat n = 2 ^ (8 * Z.of_nat n).
Proof. rewrite Z.pow_mul_r by lia. done. Qed.

Lemma encode_long_nbytes x :
  x <> 0 ->
  let n := Z.to_nat (Z.shiftr (bit_length x) 3 + 1) in
  (0 < n)%nat /\ - 256 ^ Z.of_nat n <= 2 * x < 256 ^ Z.of_nat n.
Proof.
  intros Hx n. destruct (bit_length_bound x Hx) as [Hpos Habs].
  assert (Z.of_nat n = bit_length x / 8 + 1) as Hn.
  { unfold n. rewrite Z.shiftr_div_pow2 by lia. change (2 ^ 3) with 8.
    pose proof (Z.div_pos (bit_length x) 8). lia. }
  pose proof (Z.div_pos (bit_length x) 8 ltac:(lia) ltac:(lia)).
  split; [lia|].
  rewrite pow256, Hn.
  assert (bit_length x + 1 <= 8 * (bit_length x / 8 + 1)) as Hle.
  { pose proof (Z.mod_pos_bound (bit_length x) 8).
    pose proof (Z.div_mod (bit_length x) 8). lia. }
  assert (2 ^ (bit_length x + 1) <= 2 ^ (8 * (bit_length x / 8 + 1))).
  { apply Z.pow_le_mono_r; lia. }
  rewrite Z.pow_add_r in * by lia. lia.
Qed.

Lemma le_int_signed_encode_long x : le_int_signed (encode_long x) = x.
Proof.
  unfold encode_long. destruct (Z.eqb_spec x 0) as [->|Hx]; [done|].
  destruct (encode_long_nbytes x Hx) as [Hn Hrange].
  set (n := Z.to_nat (Z.shiftr (bit_length x) 3 + 1)) in *.
  destruct (_ && _) eqn:Htrim; [|by apply le_int_signed_le_bytes].
  repeat (apply andb_prop in Htrim as [Htrim ?]).
  rewrite take_le_bytes by lia. apply le_int_signed_le_bytes.
  rewrite top_bit in *.
  rewrite nth_le_bytes in * by lia.
  apply Z.ltb_lt in Htrim. 
  match goal with H : (1 <? n)%nat = true |- _ => apply Nat.ltb_lt in H end.
  match goal with H : (_ =? 255) = true |- _ => apply Z.eqb_eq in H; rename H into Hlast end.
  match goal with H : (128 <=? _) = true |- _ => apply Z.leb_le in H; rename H into Hprev end.
  replace (Z.of_nat n) with (Z.of_nat (n - 2) + 2) in Hrange by lia.
  replace (Z.of_nat (n - 1)) with (Z.of_nat (n - 2) + 1) in * by lia.
  rewrite !Z.pow_add_r in * by lia.
  change (256 ^ 1) with 256 in *. change (256 ^ 2) with 65536 in *.
  set (m := 256 ^ Z.of_nat (n - 2)) in *.
  assert (0 < m) by (apply Z.pow_pos_nonneg; lia).
  assert (x / (m * 256) = -1) as Hq.
  { assert (-128 <= x / (m * 256) < 0).
    { split; [apply Z.div_le_lower_bound; lia | apply Z.div_lt_upper_bound; lia]. }
    rewrite <- (Z.mod_add _ 1 256), Z.mod_small in Hlast by lia. lia. }
  assert (- (m * 256) <= x).
  { pose proof (Z.div_mod x (m * 256) ltac:(lia)).
    pose proof (Z.mod_pos_bound x (m * 256) ltac:(lia)). nia. }
  assert (-128 <= x / m).
  { assert (-256 <= x / m < 0).
    { split; [apply Z.div_le_lower_bound; lia | apply Z.div_lt_upper_bound; lia]. }
    rewrite <- (Z.mod_add _ 1 256), Z.mod_small in Hprev by lia. lia. }
  assert (-128 * m <= x).
  { pose proof (Z.div_mod x m ltac:(lia)).
    pose proof (Z.mod_pos_bound x m ltac:(lia)). nia. }
  lia.
Qed.

Lemma read_ok n data s data' :
  read n data = Ok (s, data') -> data = s ++ data' /\ length s = n.
Proof.
  unfold read. destruct (Nat.ltb_spec (length data) n); [done|].
  intros [= <- <-]. rewrite take_drop, length_take. split; [done | lia].
Qed.

Lemma read_app s rest : read (length s) (s ++ rest) = Ok (s, rest).
Proof.
  unfold read. rewrite length_app.
  destruct (Nat.ltb_spec (length s + length rest) (length s)); [lia|].
  by rewrite take_app_length, drop_app_length.
Qed.

Lemma read_shrinks n data s data' :
  read n data = Ok (s, data') -> (length data' <= length data)%nat.
Proof.
  intros [-> _]%read_ok. rewrite length_app. lia.
Qed.

Lemma read_size_shrinks what n data k data' :
  read_size what n data = Ok (k, data') -> (length data' <= length data)%nat.
Proof.
  unfold read_size. destruct (read n data) as [[s d]|] eqn:Hread; csimpl; [|done].
  case_match; [done|]. intros [= <- <-]. by eapply read_shrinks.
Qed.

Lemma load_str_shrinks u n data u' data' :
  load_str u n data = Ok (u', data') -> (length data' <= length data)%nat.
Proof.
  unfold load_str. destruct (read n data) as [[s d]|] eqn:Hread; csimpl; [|done].
  case_match; [|done]. intros [= <- <-]. by eapply read_shrinks.
Qed.

Lemma load_bytes_shrinks u n data u' data' :
  load_bytes u n data = Ok (u', data') -> (length data' <= length data)%nat.
Proof.
  unfold load_bytes. destruct (read n data) as [[s d]|] eqn:Hread; csimpl; [|done].
  intros [= <- <-]. by eapply read_shrinks.
Qed.

Lemma dispatch_shrinks o u data u' data' :
  dispatch o u data = Ok (Continue u' data') ->
  (length data' <= length data)%nat.
Proof.
  unfold dispatch, continue. intros Hd.
  destruct o;
    repeat match type of Hd with
    | context [read ?n ?d] =>
        let Hr := fresh "Hr" in
        destruct (read n d) as [[? ?]|] eqn:Hr; csimpl in Hd; [apply read_shrinks in Hr|done]
    | context [read_size ?w ?n ?d] =>
        let Hr := fresh "Hr" in
        destruct (read_size w n d) as [[? ?]|] eqn:Hr; csimpl in Hd; [apply read_size_shrinks in Hr|done]
    | context [load_str ?u ?n ?d] =>
        let Hr := fresh "Hr" in
        destruct (load_str u n d) as [[? ?]|] eqn:Hr; csimpl in Hd; [apply load_str_shrinks in Hr|done]
    | context [load_bytes ?u ?n ?d] =>
        let Hr := fresh "Hr" in
        destruct (load_bytes u n d) as [[? ?]|] eqn:Hr; csimpl in Hd; [apply load_bytes_shrinks in Hr|done]
    | context [mbind _ ?m] => destruct m eqn:?; csimpl in Hd; try done
    | context [match ?x with _ => _ end] => destruct x eqn:?; csimpl in Hd; try done
    end;
    repeat match goal with
    | H : read _ _ = Ok _ |- _ => apply read_shrinks in H
    end;
    try (injection Hd as <- <-); try lia; try done.
Qed.

Lemma load_fuel f1 f2 u data :
  (length data < f1)%nat -> (length data < f2)%nat ->
  load f1 u data = load f2 u data.
Proof.
  revert f2 u data. induction f1 as [|f1 IH]; intros f2 u data H1 H2; [lia|].
  destruct f2 as [|f2]; [lia|]. destruct data as [|key data]; [done|].
  simpl. destruct (key_of_byte key); try done.
  destruct (dispatch o u data) as [[u' data'|v]|e] eqn:Hd; try done.
  apply dispatch_shrinks in Hd. simpl in *. apply IH; lia.
Qed.

Lemma load_cons fuel u key data :
  load (S fuel) u (key :: data) =
  match key_of_byte key with
  | Invalid => Raise (invalid_load_key key)
  | Unmodelled => Raise beyond_model
  | Known o =>
      match dispatch o u data with
      | Raise e => Raise e
      | Ok (Stop v) => Ok v
      | Ok (Continue u' data') => load fuel u' data'
      end
  end.
Proof. reflexivity. Qed.

Lemma key_of_op o : key_of_byte (op o) = Known o.
Proof. by destruct o. Qed.

Lemma run_continue o u data u' data' :
  dispatch o u data = Ok (Continue u' data') ->
  run u (op o :: data) = run u' data'.
Proof.
  intros Hd. unfold run. rewrite load_cons, key_of_op, Hd.
  apply dispatch_shrinks in Hd. apply load_fuel; simpl; lia.
Qed.

Lemma run_stop o u data v :
  dispatch o u data = Ok (Stop v) -> run u (op o :: data) = Ok v.
Proof.
  intros Hd. unfold run. by rewrite load_cons, key_of_op, Hd.
Qed.

(** [load] gives one answer for any fuel above the length of the input: it
    never ends for lack of fuel. *)
Lemma load_enough fuel u data :
  (length data < fuel)%nat -> load fuel u data = run u data.
Proof. intros. apply load_fuel; lia. Qed.

Lemma BATCHSIZE_gt : (1 < BATCHSIZE)%nat.
Proof. unfold BATCHSIZE. lia. Qed.

#[local] Arguments op : simpl never.
#[local] Arguments byte_of_opcode : simpl never.
#[local] Opaque le_bytes BATCHSIZE.

Lemma value_ind' (P : value -> Prop) :
  P VNone ->
  (forall b, P (VBool b)) ->
  (forall n, P (VInt n)) ->
  (forall bits, P (VFloat bits)) ->
  (forall s, P (VStr s)) ->
  (forall bs, P (VBytes bs)) ->
  (forall items, Forall P items -> P (VTuple items)) ->
  (forall items, Forall P items -> P (VList items)) ->
  (forall oid, P (VSocket oid)) ->
  forall v, P v.
Proof.
  intros HNone HBool HInt HFloat HStr HBytes HTuple HList HSocket.
  fix IH 1. intros v. destruct v as [|b|n|bits|s|bs|items|items|oid].
  - exact HNone.
  - exact (HBool b).
  - exact (HInt n).
  - exact (HFloat bits).
  - exact (HStr s).
  - exact (HBytes bs).
  - apply HTuple. induction items as [|v items IHitems]; constructor;
      [exact (IH v) | exact IHitems].
  - apply HList. induction items as [|v items IHitems]; constructor;
      [exact (IH v) | exact IHitems].
  - exact (HSocket oid).
Qed.

Lemma read_le_bytes n x rest :
  read n (le_bytes n x ++ rest) = Ok (le_bytes n x, rest).
Proof.
  rewrite <- (length_le_bytes n x) at 1. apply read_app.
Qed.

Lemma read_size_le_bytes what k n rest :
  0 <= n < 256 ^ Z.of_nat k -> n <= PY_SSIZE_T_MAX ->
  read_size what k (le_bytes k n ++ rest) = Ok (Z.to_nat n, rest).
Proof.
  intros Hn Hmax. unfold read_size. rewrite read_le_bytes. csimpl.
  rewrite le_int_le_bytes_small by done.
  by rewrite (proj2 (Z.ltb_ge _ _)) by done.
Qed.

Lemma loads_as_memoize e v :
  loads_as e v -> loads_as (e ++ [op MEMOIZE]) v.
Proof.
  intros He st ms m rest. destruct (He st ms m (op MEMOIZE :: rest)) as [m' Hrun].
  exists (m' ++ [v]). rewrite <- app_assoc. simpl. rewrite Hrun.
  by apply run_continue.
Qed.

Lemma loads_as_push o v :
  (forall u data, dispatch o u data = Ok (Continue (push v u) data)) ->
  loads_as [op o] v.
Proof.
  intros Hd st ms m rest. exists m. simpl. erewrite run_continue; [|apply Hd]. done.
Qed.

Lemma loads_as_int n : forall enc, save_long n = Ok enc -> loads_as enc (VInt n).
Proof.
  intros enc. unfold save_long.
  repeat case_match; intros [= <-]; intros st ms m rest; exists m; cbn [app];
    repeat match goal with
    | H : _ && _ = true |- _ => apply andb_prop in H as [? ?]
    | H : _ && _ = false |- _ => apply andb_false_iff in H
    | H : (_ <=? _) = true |- _ => apply Z.leb_le in H
    | H : (_ <? _) = true |- _ => apply Z.ltb_lt in H
    | H : (_ <? _) = false |- _ => apply Z.ltb_ge in H
    end.
  - erewrite run_continue; [reflexivity|]. unfold dispatch. rewrite read_le_bytes. csimpl.
    by rewrite le_int_le_bytes_small by (simpl; lia).
  - erewrite run_continue; [reflexivity|]. unfold dispatch. rewrite read_le_bytes. csimpl.
    by rewrite le_int_le_bytes_small by (simpl; lia).
  - erewrite run_continue; [reflexivity|]. unfold dispatch. rewrite read_le_bytes. csimpl.
    by rewrite le_int_signed_le_bytes by (simpl; lia).
  - erewrite run_continue; [reflexivity|]. unfold dispatch. rewrite <- app_assoc.
    rewrite read_le_bytes. csimpl.
    rewrite le_int_le_bytes_small by (simpl; lia).
    rewrite Nat2Z.id, read_app. csimpl. by rewrite le_int_signed_encode_long.
  - erewrite run_continue; [reflexivity|]. unfold dispatch. rewrite <- app_assoc.
    rewrite read_le_bytes. csimpl.
    rewrite le_int_signed_le_bytes by (simpl; lia).
    rewrite (proj2 (Z.ltb_ge _ _)) by lia.
    rewrite Nat2Z.id, read_app. csimpl. by rewrite le_int_signed_encode_long.
Qed.

Lemma loads_as_float bits :
  0 <= bits < 2 ^ 64 -> loads_as (save_float bits) (VFloat bits).
Proof.
  intros Hbits st ms m rest. exists m. unfold save_float. cbn [app].
  erewrite run_continue; [reflexivity|]. unfold dispatch.
  unfold be_bytes at 1.
  rewrite <- (length_le_bytes 8 bits) at 1. rewrite <- length_rev, read_app. csimpl.
  fold (be_bytes 8 bits). by rewrite be_int_be_bytes.
Qed.

Lemma loads_as_bytes bs :
  Z.of_nat (length bs) <= PY_SSIZE_T_MAX -> loads_as (save_bytes bs) (VBytes bs).
Proof.
  intros Hlen. unfold save_bytes. rewrite app_assoc. apply loads_as_memoize.
  unfold PY_SSIZE_T_MAX in Hlen.
  intros st ms m rest. exists m.
  repeat case_match;
    repeat match goal with
    | H : (_ <=? _) = true |- _ => apply Z.leb_le in H
    | H : (_ <=? _) = false |- _ => apply Z.leb_gt in H
    | H : (_ <? _) = true |- _ => apply Z.ltb_lt in H
    | H : (_ <? _) = false |- _ => apply Z.ltb_ge in H
    end;
    cbn [app]; rewrite <- app_assoc;
    (erewrite run_continue; [reflexivity|]); unfold dispatch;
    rewrite read_size_le_bytes by (unfold PY_SSIZE_T_MAX; simpl; lia); csimpl;
    unfold load_bytes; rewrite Nat2Z.id, read_app; done.
Qed.

Lemma loads_as_str s :
  utf8_valid (list_byte_of_string s) = true ->
  Z.of_nat (length (list_byte_of_string s)) <= PY_SSIZE_T_MAX ->
  loads_as (save_str s) (VStr s).
Proof.
  intros Hutf Hlen. unfold save_str. cbv zeta. rewrite app_assoc. apply loads_as_memoize.
  unfold PY_SSIZE_T_MAX in Hlen.
  intros st ms m rest. exists m.
  repeat case_match;
    repeat match goal with
    | H : (_ <=? _) = true |- _ => apply Z.leb_le in H
    | H : (_ <=? _) = false |- _ => apply Z.leb_gt in H
    | H : (_ <? _) = true |- _ => apply Z.ltb_lt in H
    | H : (_ <? _) = false |- _ => apply Z.ltb_ge in H
    end;
    cbn [app]; rewrite <- app_assoc;
    (erewrite run_continue; [reflexivity|]); unfold dispatch;
    rewrite read_size_le_bytes by (unfold PY_SSIZE_T_MAX; simpl; lia); csimpl;
    unfold load_str; rewrite Nat2Z.id, read_app; csimpl;
    rewrite Hutf, string_of_list_byte_of_string; done.
Qed.


Lemma loads_as_seq es items :
  Forall2 loads_as es items ->
  forall st ms m rest, exists m',
    run (Unpickler st ms m) (concat es ++ rest) =
    run (Unpickler (rev items ++ st) ms m') rest.
Proof.
  induction 1 as [|e v es items He _ IH]; intros st ms m rest.
  - by exists m.
  - destruct (He st ms m (concat es ++ rest)) as [m1 H1].
    destruct (IH (v :: st) ms m1 rest) as [m2 H2].
    exists m2. cbn [concat rev]. rewrite <- !app_assoc, H1, H2. done.
Qed.

Lemma loads_as_tuple es items :
  Forall2 loads_as es items -> loads_as (save_tuple es) (VTuple items).
Proof.
  intros Hall. pose proof (Forall2_length _ _ _ Hall) as Hlen.
  assert (forall o k,
    length items = k ->
    (forall st ms m data,
       dispatch o (Unpickler (rev items ++ st) ms m) data =
       Ok (Continue (Unpickler (VTuple items :: st) ms m) data)) ->
    loads_as (concat es ++ [op o; op MEMOIZE]) (VTuple items)) as Hcounted.
  { intros o k Hk Hd.
    change [op o; op MEMOIZE] with ([op o] ++ [op MEMOIZE]).
    rewrite app_assoc. apply loads_as_memoize.
    intros st ms m rest. destruct (loads_as_seq _ _ Hall st ms m (op o :: rest)) as [m' Hrun].
    exists m'. rewrite <- app_assoc. cbn [app]. rewrite Hrun.
    by apply run_continue. }
  unfold save_tuple.
  destruct es as [|e1 [|e2 [|e3 [|e4 es]]]].
  - destruct items; [|done]. by apply loads_as_push.
  - destruct items as [|v1 [|]]; [done | | done].
    by apply (Hcounted TUPLE1 1%nat).
  - destruct items as [|v1 [|v2 [|]]]; [done | done | | done].
    by apply (Hcounted TUPLE2 2%nat).
  - destruct items as [|v1 [|v2 [|v3 [|]]]]; [done | done | done | | done].
    by apply (Hcounted TUPLE3 3%nat).
  - set (es' := e1 :: e2 :: e3 :: e4 :: es) in *.
    replace (op MARK :: concat es' ++ [op TUPLE; op MEMOIZE])
      with ((op MARK :: concat es' ++ [op TUPLE]) ++ [op MEMOIZE])
      by (cbn [app]; by rewrite <- app_assoc).
    apply loads_as_memoize. intros st ms m rest.
    destruct (loads_as_seq _ _ Hall [] (st :: ms) m (op TUPLE :: rest)) as [m' Hrun].
    exists m'. cbn [app]. erewrite run_continue; [|reflexivity].
    cbn [stack metastack memo]. rewrite <- app_assoc. cbn [app]. rewrite Hrun.
    erewrite run_continue; [reflexivity|]. cbn [dispatch]. unfold pop_mark.
    cbn [stack metastack memo]. csimpl. unfold push. cbn [stack metastack memo].
    by rewrite app_nil_r, rev_involutive.
Qed.

Lemma batch_step es items l st ms m rest :
  Forall2 loads_as es items ->
  exists m',
    run (Unpickler (VList l :: st) ms m)
      ((if (1 <? length es)%nat then op MARK :: concat es ++ [op APPENDS]
        else if (0 <? length es)%nat then concat es ++ [op APPEND]
        else []) ++ rest) =
    run (Unpickler (VList (l ++ items) :: st) ms m') rest.
Proof.
  intros Hall. pose proof (Forall2_length _ _ _ Hall) as Hlen.
  destruct (Nat.ltb_spec 1 (length es)) as [Hmany|Hfew].
  - destruct (loads_as_seq _ _ Hall [] ((VList l :: st) :: ms) m
                (op APPENDS :: rest)) as [m' Hrun].
    exists m'. cbn [app]. erewrite run_continue; [|reflexivity].
    cbn [stack metastack memo]. rewrite <- app_assoc. cbn [app]. rewrite Hrun.
    erewrite run_continue; [reflexivity|]. cbn [dispatch]. unfold pop_mark.
    cbn [stack metastack memo]. csimpl. rewrite app_nil_r, rev_involutive.
    unfold do_append. cbn [stack metastack memo].
    destruct items as [|v items]; [simpl in Hlen; lia | done].
  - destruct (Nat.ltb_spec 0 (length es)) as [Hone|Hnone].
    + destruct es as [|e [|]]; [simpl in *; lia | | simpl in *; lia].
      destruct items as [|v [|]]; [done | | done].
      apply Forall2_cons_1 in Hall as [He _].
      destruct (He (VList l :: st) ms m (op APPEND :: rest)) as [m' Hrun].
      exists m'. cbn [concat]. rewrite app_nil_r, <- app_assoc. cbn [app].
      rewrite Hrun. erewrite run_continue; [reflexivity|]. reflexivity.
    + destruct es; [|simpl in *; lia]. destruct items; [|done].
      exists m. by rewrite app_nil_r.
Qed.

Lemma batch_appends_run fuel es items l st ms m rest :
  Forall2 loads_as es items ->
  (length es < fuel)%nat ->
  exists m',
    run (Unpickler (VList l :: st) ms m) (batch_appends_fuel fuel es ++ rest) =
    run (Unpickler (VList (l ++ items) :: st) ms m') rest.
Proof.
  revert es items l m. induction fuel as [|fuel IH]; intros es items l m Hall Hfuel;
    [lia|].
  cbn [batch_appends_fuel]. cbv zeta.
  pose proof (Forall2_take _ _ _ BATCHSIZE Hall) as Htake.
  pose proof (Forall2_drop _ _ _ BATCHSIZE Hall) as Hdrop.
  rewrite <- app_assoc.
  edestruct (batch_step (take BATCHSIZE es) (take BATCHSIZE items) l st ms m)
    as [m1 H1]; [done|]. rewrite H1.
  destruct (Nat.ltb_spec (length (take BATCHSIZE es)) BATCHSIZE) as [Hlast|Hfull].
  - exists m1. rewrite length_take in Hlast.
    rewrite (take_ge items); [done|].
    rewrite <- (Forall2_length _ _ _ Hall). lia.
  - rewrite length_take in Hfull.
    pose proof BATCHSIZE_gt.
    edestruct (IH (drop BATCHSIZE es) (drop BATCHSIZE items)
                 (l ++ take BATCHSIZE items) m1) as [m2 H2]; [done | |].
    { rewrite length_drop. lia. }
    exists m2. rewrite H2. by rewrite <- app_assoc, take_drop.
Qed.

Lemma loads_as_list es items :
  Forall2 loads_as es items -> loads_as (save_list es) (VList items).
Proof.
  intros Hall st ms m rest.
  edestruct (batch_appends_run (S (length es)) es items [] st ms (m ++ [VList []]))
    as [m' Hrun]; [done | lia |].
  exists m'. unfold save_list, batch_appends. cbn [app].
  erewrite run_continue; [|reflexivity].
  erewrite run_continue; [|reflexivity].
  exact Hrun.
Qed.

Lemma value_ok_tuple items :
  value_ok (VTuple items) = forallb value_ok items.
Proof. cbn [value_ok]. induction items as [|v items IH]; [done|]. cbn. by rewrite IH. Qed.

Lemma value_ok_list items :
  value_ok (VList items) = forallb value_ok items.
Proof. cbn [value_ok]. induction items as [|v items IH]; [done|]. cbn. by rewrite IH. Qed.

Lemma save_items_inv (f : list bytes -> bytes) items enc :
  (save (VTuple items) = Ok enc /\ f = save_tuple \/
   save (VList items) = Ok enc /\ f = save_list) ->
  exists es, Forall2 (fun e v => save v = Ok e) es items /\ enc = f es.
Proof.
  cbn [save]. intros H.
  assert (exists es,
    (fix save_all (vs : list value) : result (list bytes) :=
       match vs with
       | [] => Ok []
       | v :: vs' => e ← save v; es ← save_all vs'; Ok (e :: es)
       end) items = Ok es /\ enc = f es) as (es & Hes & ->).
  { destruct H as [[H ->]|[H ->]];
      match type of H with
      | context [mbind _ ?x] => destruct x as [es|]; [|done]
      end; injection H as <-; by exists es. }
  exists es. split; [|done]. clear H.
  revert es Hes. induction items as [|v items IH]; intros es Hes.
  - injection Hes as <-. constructor.
  - destruct (save v) as [e|] eqn:Hv; [|done]. csimpl in Hes.
    match type of Hes with
    | context [mbind _ ?x] => destruct x as [es'|] eqn:Hes'; [|done]
    end.
    injection Hes as <-. constructor; [done|]. by apply IH.
Qed.

(** What [save] writes for a value, [load] reads back as that value. *)
Lemma save_loads_as v :
  value_ok v = true -> forall enc, save v = Ok enc -> loads_as enc v.
Proof.
  induction v as [|b|n|bits|s|bs|items IH|items IH|oid] using value_ind';
    intros Hok enc Hsave.
  - injection Hsave as <-. by apply loads_as_push.
  - injection Hsave as <-. destruct b; by apply loads_as_push.
  - by apply loads_as_int.
  - injection Hsave as <-. cbn in Hok. apply loads_as_float. lia.
  - injection Hsave as <-. cbn [value_ok] in Hok.
    apply andb_prop in Hok as [Hutf Hlen]. apply loads_as_str; [done | lia].
  - injection Hsave as <-. cbn [value_ok] in Hok. apply loads_as_bytes. lia.
  - rewrite value_ok_tuple in Hok.
    destruct (save_items_inv save_tuple items enc) as (es & Hes & ->); [by left|].
    apply loads_as_tuple. clear Hsave.
    induction Hes as [|e v es items He _ IHes]; [constructor|].
    cbn in Hok. apply andb_prop in Hok as [Hv Hitems].
    apply Forall_cons in IH as [IHv IH].
    constructor; [by apply IHv | by apply IHes].
  - rewrite value_ok_list in Hok.
    destruct (save_items_inv save_list items enc) as (es & Hes & ->); [by right|].
    apply loads_as_list. clear Hsave.
    induction Hes as [|e v es items He _ IHes]; [constructor|].
    cbn in Hok. apply andb_prop in Hok as [Hv Hitems].
    apply Forall_cons in IH as [IHv IH].
    constructor; [by apply IHv | by apply IHes].
  - done.
Qed.

Lemma read_all data : read (length data) data = Ok (data, []).
Proof. rewrite <- (app_nil_r data) at 2. apply read_app. Qed.

Lemma run_frame data :
  Z.of_nat (length data) <= PY_SSIZE_T_MAX ->
  run initial (op PROTO :: byte_of_Z DEFAULT_PROTOCOL :: frame data) =
  run initial data.
Proof.
  intros Hlen.
  rewrite (run_continue PROTO initial _ initial (frame data)) by reflexivity.
  unfold frame. case_match; [done|].
  rewrite (run_continue FRAME initial _ initial data); [done|].
  cbn [dispatch]. rewrite read_le_bytes. csimpl.
  unfold PY_SSIZE_T_MAX in Hlen.
  rewrite le_int_le_bytes_small by (simpl; lia).
  rewrite (proj2 (Z.ltb_ge _ _)) by done.
  by rewrite Nat2Z.id, read_all.
Qed.

(** [pickle.loads(pickle.dumps(v))] is [v]. *)
Lemma loads_dumps v payload :
  value_ok v = true -> dumps v = Ok payload -> loads payload = Ok v.
Proof.
  intros Hok. unfold dumps, loads.
  destruct (save v) as [enc|] eqn:Hsave; csimpl; [|done].
  case_match eqn:Hmem; [done|]. intros [= <-].
  apply Z.ltb_ge in Hmem. cbn [length] in Hmem.
  assert (Z.of_nat (length (enc ++ [op STOP])) <= PY_SSIZE_T_MAX) as Hlen.
  { unfold frame in Hmem. case_match; [lia|].
    cbn [length] in Hmem. rewrite length_app in Hmem. lia. }
  rewrite run_frame by done.
  destruct (save_loads_as v Hok enc Hsave [] [] [] [op STOP]) as [m' Hrun].
  unfold initial. rewrite Hrun.
  by apply run_stop.
Qed.

Lemma f64_eq_refl bits : f64_eq bits bits = negb (f64_is_nan bits).
Proof.
  unfold f64_eq. rewrite Z.eqb_refl, orb_true_l, andb_true_r.
  by destruct (f64_is_nan bits).
Qed.

(** A value equals itself under [==] unless a NaN occurs in it. *)
Lemma py_eq_refl v : py_eq v v = negb (has_nan v).
Proof.
  induction v as [|b|n|bits|s|bs|items IH|items IH|oid] using value_ind'.
  - done.
  - cbn. apply Z.eqb_refl.
  - cbn. apply Z.eqb_refl.
  - apply f64_eq_refl.
  - cbn. by rewrite bool_decide_eq_true_2.
  - cbn. by rewrite bool_decide_eq_true_2.
  - cbn [py_eq as_number has_nan].
    induction IH as [|v items Hv _ IHitems]; [done|].
    rewrite Hv, IHitems. by rewrite negb_orb.
  - cbn [py_eq as_number has_nan].
    induction IH as [|v items Hv _ IHitems]; [done|].
    rewrite Hv, IHitems. by rewrite negb_orb.
  - cbn. by rewrite bool_decide_eq_true_2.
Qed.

Lemma mapping_eq_single c v v' :
  mapping_eq [(c, v')] [(c, v)] = py_eq v' v.
Proof.
  unfold mapping_eq. cbn. case_decide; [|done]. by rewrite andb_true_r.
Qed.

Lemma deserialize_single c payload v :
  loads payload = Ok v ->
  deserialize loads [(c, payload)] = Ok [(c, v)].
Proof.
  intros Hload. unfold deserialize, dict_items.
  cbn [deserialize_loop]. by rewrite Hload.
Qed.

#[local] Transparent le_bytes BATCHSIZE.
End PickleFacts.

(** ** The codec, over any [pickle] *)

Section CodecFacts.
Context {Value : Type}.
Variable pickle_loads : bytes -> result Value.

Lemma deserialize_loop_keys items res r :
  deserialize_loop pickle_loads items res = Ok r ->
  (forall k, k ∈ dict_keys r <-> k ∈ dict_keys res \/ k ∈ items.*1) /\
  (dict_wf res -> dict_wf r).
Proof.
  revert res. induction items as [|[source data] items IH]; simpl; intros res Hr.
  - injection Hr as ->. split; [|done].
    intros k. rewrite elem_of_nil. tauto.
  - destruct (pickle_loads data) as [obj|e]; simpl in Hr; [|done].
    apply IH in Hr as [Hkeys Hwf]. split.
    + intros k. rewrite Hkeys, elem_of_dict_keys_set, elem_of_cons. tauto.
    + intros Hres. by apply Hwf, dict_set_wf.
Qed.

(** With distinct keys ahead, the loop appends one decoded item per input
    item, in order. *)
Lemma deserialize_loop_ok items res r :
  NoDup (dict_keys res ++ items.*1) ->
  deserialize_loop pickle_loads items res = Ok r ->
  exists vs, r = res ++ vs /\ vs.*1 = items.*1 /\
    Forall2 (fun it kv => pickle_loads it.2 = Ok kv.2) items vs.
Proof.
  revert res. induction items as [|[source data] items IH]; csimpl; intros res Hnd Hr.
  - injection Hr as <-. exists []. by rewrite app_nil_r.
  - destruct (pickle_loads data) as [obj|e] eqn:Hload; simpl in Hr; [|done].
    assert (source ∉ dict_keys res) as Hfresh.
    { apply NoDup_app in Hnd as (_ & Hdis & _). intros Hin.
      apply (Hdis _ Hin). apply list_elem_of_here. }
    rewrite dict_set_fresh in Hr by done.
    apply IH in Hr as (vs & -> & Hk & Hall).
    + exists ((source, obj) :: vs). split_and!.
      * by rewrite <- app_assoc.
      * csimpl. by rewrite Hk.
      * by constructor.
    + unfold dict_keys. rewrite fmap_app. simpl.
      by rewrite <- app_assoc.
Qed.

(** The loop raises what the first payload that fails to decode raises. *)
Lemma deserialize_loop_raise pre source data post e res :
  Forall (fun it => is_ok (pickle_loads it.2) = true) pre ->
  pickle_loads data = Raise e ->
  deserialize_loop pickle_loads (pre ++ (source, data) :: post) res = Raise e.
Proof.
  intros Hpre Hdata. revert res.
  induction Hpre as [|[k p] pre Hok _ IH]; simpl; intros res.
  - by rewrite Hdata.
  - simpl in Hok. destruct (pickle_loads p); [apply IH | done].
Qed.

Lemma deserialize_loop_total items res :
  Forall (fun it => is_ok (pickle_loads it.2) = true) items ->
  exists r, deserialize_loop pickle_loads items res = Ok r.
Proof.
  intros Hall. revert res.
  induction Hall as [|[k p] items Hok _ IH]; simpl; intros res; [by eexists|].
  simpl in Hok. destruct (pickle_loads p); [apply IH | done].
Qed.

Lemma dict_keys_outcomes (r : pydict string Value) :
  dict_keys (outcomes_of r) = dict_keys r.
Proof.
  unfold dict_keys, outcomes_of. rewrite <- list_fmap_compose.
  apply list_fmap_ext. by intros i [k v] _.
Qed.

(** C1 (as amended): [deserialize] decodes the channels in the order of
    the input mapping and fails as a whole. If a channel's payload does
    not decode and every payload before it does, the call raises that
    channel's error and returns no mapping. If every payload decodes, the
    call returns a mapping that holds the decoded value of every
    channel. *)
Theorem deserialize_all_or_nothing (source_msg_map : pydict string bytes) :
  dict_wf source_msg_map ->
  (forall pre source data post e,
     source_msg_map = pre ++ (source, data) :: post ->
     Forall (fun it => is_ok (pickle_loads it.2) = true) pre ->
     pickle_loads data = Raise e ->
     deserialize pickle_loads source_msg_map = Raise e) /\
  (Forall (fun it => is_ok (pickle_loads it.2) = true) source_msg_map ->
   decodes_independently pickle_loads source_msg_map).
Proof.
  intros Hwf. split.
  - intros pre source data post e -> Hpre Hdata.
    by apply deserialize_loop_raise.
  - intros Hall. unfold decodes_independently, deserialize, dict_items.
    destruct (deserialize_loop_total _ dict_empty Hall) as [r Hr].
    exists r. split; [done|].
    apply deserialize_loop_ok in Hr as (vs & -> & Hk & Hvs); [|done].
    change (dict_empty ++ vs) with vs.
    assert (dict_keys (outcomes_of vs) = dict_keys source_msg_map) as Hkeys
      by by rewrite dict_keys_outcomes.
    split; [done|].
    intros source data Hin. apply dict_get_elem_of.
      * unfold dict_wf. by rewrite Hkeys.
      * apply list_elem_of_lookup in Hin as [i Hi].
        destruct (Forall2_lookup_l _ _ _ _ _ Hvs Hi) as ([k v] & Hv & Hload).
        simpl in Hload. rewrite Hload.
        assert (k = source) as ->.
        { assert (vs.*1 !! i = Some k) as Hki by by rewrite list_lookup_fmap, Hv.
          rewrite Hk, list_lookup_fmap, Hi in Hki. by injection Hki. }
        apply list_elem_of_lookup. exists i. unfold outcomes_of.
        by rewrite list_lookup_fmap, Hv.
Qed.

(** C3: when [deserialize] succeeds, the mapping it returns has the keys
    of the input mapping: each source channel of the input is a key of
    the output, the output has no other key, and it has each key once.
    The channels also come in the order of the input. *)
Theorem deserialize_keys (source_msg_map : pydict string bytes)
    (r : pydict string Value) :
  deserialize pickle_loads source_msg_map = Ok r ->
  (forall source, source ∈ dict_keys r <-> source ∈ dict_keys source_msg_map)
  /\ dict_wf r
  /\ length r = length (remove_dups (dict_keys source_msg_map))
  /\ (dict_wf source_msg_map -> dict_keys r = dict_keys source_msg_map).
Proof.
  intros Hr. unfold deserialize, dict_items in Hr.
  pose proof (deserialize_loop_keys _ _ _ Hr) as [Hkeys Hwf].
  assert (dict_wf r) as Hwfr by (apply Hwf; constructor).
  assert (forall source,
    source ∈ dict_keys r <-> source ∈ dict_keys source_msg_map) as Hiff.
  { intros k. rewrite Hkeys. simpl. rewrite elem_of_nil. tauto. }
  split_and!; [done | done | |].
  - rewrite <- (length_fmap fst r). apply Permutation_length.
    apply NoDup_Permutation; [done | apply NoDup_remove_dups |].
    intros k. fold (dict_keys r). rewrite Hiff. by rewrite elem_of_remove_dups.
  - intros Hm. apply deserialize_loop_ok in Hr as (vs & -> & Hk & _); done.
Qed.
End CodecFacts.

(** ** The test module behind the bridge *)

Section BridgeFacts.
Context `{GuestRuntime}.
Import Bridge TestFunctions.

Lemma acquire_free b :
  gate_held b = false ->
  acquire b = Some (Token, {| gate_held := true; entered := entered b |}).
Proof. unfold acquire. by intros ->. Qed.

Lemma release_acquired b :
  gate_held b = false ->
  release Token {| gate_held := true; entered := entered b |} = b.
Proof. destruct b as [held log]. simpl. by intros ->. Qed.

Lemma resolve_function module name f b :
  gate_held b = false ->
  module !! name = Some (Function f) ->
  resolve module name b = Some (Success f, b).
Proof.
  intros Hfree Hname. unfold resolve.
  rewrite acquire_free by done. csimpl. rewrite Hname. simpl.
  by rewrite release_acquired.
Qed.

(** An invocation that runs the body: the gate is free again afterwards,
    and only the log has grown. *)
Lemma invoke_runs f args guest b :
  gate_held b = false ->
  apply_args (func_argcount f) (func_body f) args = Some guest ->
  invoke f args b =
    Some (translate guest,
          {| gate_held := false; entered := entered b ++ [func_name f] |}).
Proof.
  intros Hfree Hargs. unfold invoke.
  rewrite acquire_free by done. csimpl. by rewrite Hargs.
Qed.

Lemma invoke_arity f args b :
  gate_held b = false ->
  apply_args (func_argcount f) (func_body f) args = None ->
  invoke f args b = Some (Failure ArityError, b).
Proof.
  intros Hfree Hargs. unfold invoke.
  rewrite acquire_free by done. csimpl. rewrite Hargs.
  by rewrite release_acquired.
Qed.

Lemma namespace_no_params :
  namespace !! "no_params" = Some (Function (PyFunction "no_params" 0 no_params)).
Proof. reflexivity. Qed.

Lemma namespace_returns_none :
  namespace !! "returns_none" =
  Some (Function (PyFunction "returns_none" 0 returns_none)).
Proof. reflexivity. Qed.

Lemma namespace_raises_error :
  namespace !! "raises_error" =
  Some (Function (PyFunction "raises_error" 0 raises_error)).
Proof. reflexivity. Qed.

Lemma namespace_two_params :
  namespace !! "two_params" =
  Some (Function (PyFunction "two_params" 2 two_params)).
Proof. reflexivity. Qed.

Lemma resolve_and_invoke_runs module name f args guest log :
  module !! name = Some (Function f) ->
  apply_args (func_argcount f) (func_body f) args = Some guest ->
  resolve_and_invoke module name args (MkBridge false log) =
    Some (translate guest, MkBridge false (log ++ [func_name f])).
Proof.
  intros Hname Hargs. unfold resolve_and_invoke.
  rewrite (resolve_function module name f (MkBridge false log)) by done.
  csimpl. by rewrite (invoke_runs f args guest (MkBridge false log)).
Qed.

Lemma resolve_and_invoke_arity module name f args log :
  module !! name = Some (Function f) ->
  apply_args (func_argcount f) (func_body f) args = None ->
  resolve_and_invoke module name args (MkBridge false log) =
    Some (Failure ArityError, MkBridge false log).
Proof.
  intros Hname Hargs. unfold resolve_and_invoke.
  rewrite (resolve_function module name f (MkBridge false log)) by done.
  csimpl. by rewrite invoke_arity.
Qed.


(** C6: a name bound to a value that cannot be called resolves to
    [NotCallableError], whatever the module and the value; resolving, and
    resolving in order to invoke, leave the bridge as it was, so no body
    has been entered. The answer comes from [callable], the capability
    check. *)
Theorem resolve_not_callable (module : gmap string pyobject)
    (name : string) (v : value) (args : list value) (b : bridge) :
  gate_held b = false ->
  module !! name = Some (Data v) ->
  callable (Data v) = false
  /\ resolve module name b = Some (Failure NotCallableError, b)
  /\ resolve_and_invoke module name args b =
       Some (Failure NotCallableError, b).
Proof.
  intros Hfree Hname.
  assert (resolve module name b = Some (Failure NotCallableError, b)) as Hres.
  { unfold resolve. rewrite acquire_free by done. csimpl.
    rewrite Hname. simpl. by rewrite release_acquired. }
  split_and!; [done | done |].
  unfold resolve_and_invoke. by rewrite Hres.
Qed.


End BridgeFacts.

(** ** The iteration rate limiter *)

Section RateLimiterFacts.
Import RateLimiter.

Lemma times_shown_emit_sleep st n :
  times_shown (emit (Sleep n) st) = times_shown st.
Proof.
  unfold times_shown, emit. simpl. rewrite filter_app, length_app.
  rewrite filter_cons_False, filter_nil by done. simpl. lia.
Qed.

Lemma step_shown {A} (x : A) st :
  did_show_msg (step x st).2 = true /\
  times_shown (step x st).2 =
    (times_shown st + if did_show_msg st then 0 else 1)%nat.
Proof.
  unfold step. destruct (did_show_msg st) eqn:Hflag; simpl.
  - split; [done|]. rewrite times_shown_emit_sleep. lia.
  - split; [done|]. rewrite times_shown_emit_sleep.
    unfold times_shown. simpl. rewrite !filter_app, !length_app.
    rewrite filter_cons_True, filter_cons_False, !filter_nil by done.
    simpl. lia.
Qed.

Lemma steps_cons_state {A} (x : A) (inputs : list A) st :
  (steps (x :: inputs) st).2 = (steps inputs (step x st).2).2.
Proof.
  cbn [steps]. destruct (step x st) as [y st1]. cbn [snd].
  by destruct (steps inputs st1).
Qed.

Lemma steps_shown {A} (inputs : list A) st :
  did_show_msg st = true ->
  did_show_msg (steps inputs st).2 = true /\
  times_shown (steps inputs st).2 = times_shown st.
Proof.
  revert st. induction inputs as [|x inputs IH]; intros st Hflag; [done|].
  rewrite steps_cons_state.
  destruct (step_shown x st) as [Hflag1 Hshown1].
  destruct (IH _ Hflag1) as [Hflag2 Hshown2].
  rewrite Hflag in Hshown1. split; [done | lia].
Qed.

(** C9: [step] returns its argument, whatever the argument and whatever
    the state of the module (the flag included). *)
Theorem step_returns_input {A : Type} (input_data : A) (st : state) :
  (step input_data st).1 = input_data.
Proof. reflexivity. Qed.

(** C10: [did_show_msg] starts [False]; after a call of [step] it is
    [True], whatever it was before, so no call sets it back; and over any
    number of calls on the module the branch of the one-time message runs
    at most once (once exactly, when there is a call). *)
Theorem did_show_msg_one_shot :
  did_show_msg initial = false
  /\ (forall (A : Type) (x : A) st, did_show_msg (step x st).2 = true)
  /\ (forall (A : Type) (inputs : list A),
        (times_shown (steps inputs initial).2 <= 1)%nat
        /\ times_shown (steps inputs initial).2 = min 1 (length inputs)
        /\ (inputs <> [] -> did_show_msg (steps inputs initial).2 = true)).
Proof.
  split_and!; [done | intros; apply step_shown |].
  intros A [|x inputs].
  { split_and!; [cbn; lia | reflexivity | done]. }
  rewrite steps_cons_state.
  destruct (step_shown x initial) as [Hflag1 Hshown1].
  destruct (steps_shown inputs _ Hflag1) as [Hflag2 Hshown2].
  rewrite Hshown2, Hshown1, Hflag2. split_and!; [cbn; lia | reflexivity | done].
Qed.
End RateLimiterFacts.

(** ** The codec on [pickle] *)

Section PickleCodecFacts.
Import Pickle TestFunctions.

Lemma truncated_msg_wf : dict_wf truncated_msg.
Proof.
  unfold dict_wf, truncated_msg, dict_keys. cbn [fmap list_fmap fst].
  apply NoDup_cons. split; [|apply NoDup_singleton].
  intros Hin%list_elem_of_singleton. discriminate.
Defined.

Lemma sum_msg_wf : dict_wf sum_msg.
Proof.
  unfold dict_wf, sum_msg, dict_keys. cbn [fmap list_fmap fst].
  apply NoDup_cons. split; [|apply NoDup_singleton].
  intros Hin%list_elem_of_singleton. discriminate.
Defined.

(** The call on [{a: dumps(3), b: b''}] raises [EOFError] and returns
    nothing for channel [a], whose payload is well formed. *)
Lemma deserialize_all_or_nothing_witness :
  dict_wf truncated_msg /\
  deserialize loads truncated_msg =
    Raise (Exn "EOFError" "Ran out of input").
Proof.
  split; [exact truncated_msg_wf|].
  apply (proj1 (deserialize_all_or_nothing loads truncated_msg
                  truncated_msg_wf) [("a", payload_3)] "b" [] []).
  - reflexivity.
  - constructor; [reflexivity | constructor].
  - reflexivity.
Defined.

(** C1, as stated, fails on [{a: dumps(3), b: b''}]: no mapping comes
    back, so there is no entry that could carry channel [b]'s error and no
    entry with channel [a]'s value. *)
Lemma deserialize_aborts_on_malformed_channel :
  dict_wf truncated_msg /\
  loads payload_3 = Ok (VInt 3) /\
  ~ decodes_independently loads truncated_msg.
Proof.
  split_and!; [exact truncated_msg_wf | reflexivity |].
  intros (r & Hr & _). vm_compute in Hr. discriminate.
Qed.

(** C3 on [{a: dumps(3), b: dumps(4)}]. *)
Lemma deserialize_keys_witness :
  deserialize loads sum_msg = Ok [("a", VInt 3); ("b", VInt 4)] /\
  dict_keys [("a", VInt 3); ("b", VInt 4)] = dict_keys sum_msg.
Proof.
  assert (deserialize loads sum_msg = Ok [("a", VInt 3); ("b", VInt 4)])
    as Hr by reflexivity.
  split; [exact Hr|].
  exact (proj2 (proj2 (proj2 (deserialize_keys loads sum_msg _ Hr))) sum_msg_wf).
Defined.





(** C6 on the module's own [not_callable]. *)
Lemma resolve_not_callable_witness :
  Bridge.resolve attributes "not_callable" Bridge.idle =
    Some (Bridge.Failure Bridge.NotCallableError, Bridge.idle).
Proof.
  apply (resolve_not_callable attributes "not_callable" not_callable []
           Bridge.idle); reflexivity.
Defined.

(** A value that has no encoding: the socket of the echo example. *)
Lemma serialize_socket oid :
  serialize dumps (VSocket oid) =
    Raise (Exn "TypeError" "cannot pickle 'socket' object").
Proof. reflexivity. Qed.
End PickleCodecFacts.

(** ** More on [deserialize], over any [pickle] *)

Section CodecMore.
Context {Value : Type}.
Variable pickle_loads : bytes -> result Value.

Lemma deserialize_loop_app items1 items2 (res : pydict string Value) :
  deserialize_loop pickle_loads (items1 ++ items2) res =
  (r ← deserialize_loop pickle_loads items1 res;
   deserialize_loop pickle_loads items2 r).
Proof.
  revert res. induction items1 as [|[source data] items1 IH]; intros res; [done|].
  cbn [app deserialize_loop]. destruct (pickle_loads data); csimpl; [apply IH | done].
Qed.

(** With distinct keys ahead, the loop does not look at the dictionary it
    extends. *)
Lemma deserialize_loop_shift items (res : pydict string Value) :
  NoDup (dict_keys res ++ items.*1) ->
  deserialize_loop pickle_loads items res =
  (vs ← deserialize_loop pickle_loads items dict_empty; Ok (res ++ vs)).
Proof.
  revert res. induction items as [|[source data] items IH]; intros res Hnd.
  - cbn. by rewrite app_nil_r.
  - cbn [deserialize_loop]. destruct (pickle_loads data) as [obj|e]; csimpl; [|done].
    assert (source ∉ dict_keys res) as Hfresh.
    { apply NoDup_app in Hnd as (_ & Hdis & _). intros Hin.
      apply (Hdis _ Hin). apply list_elem_of_here. }
    rewrite dict_set_fresh by done.
    assert (NoDup (source :: items.*1)) as Hitems
      by by apply NoDup_app in Hnd as (_ & _ & ?).
    rewrite (IH (res ++ [(source, obj)])), (IH [(source, obj)]).
    + destruct (deserialize_loop pickle_loads items dict_empty); csimpl; [|done].
      by rewrite <- app_assoc.
    + done.
    + unfold dict_keys. rewrite fmap_app, <- app_assoc. done.
Qed.

(** [deserialize] returns a mapping exactly when every payload decodes;
    the keys of the input play no part in that. *)
Theorem deserialize_ok_iff (source_msg_map : pydict string bytes) :
  is_ok (deserialize pickle_loads source_msg_map) =
  forallb (fun it => is_ok (pickle_loads it.2)) source_msg_map.
Proof.
  unfold deserialize, dict_items. generalize (@dict_empty string Value).
  induction source_msg_map as [|[source data] items IH]; intros res; [done|].
  cbn [deserialize_loop forallb snd].
  destruct (pickle_loads data); csimpl; [apply IH | done].
Qed.

(** In the mapping [deserialize] returns, the entry of a channel is what
    [pickle.loads] makes of that channel's payload, and every entry comes
    from a channel of the input. *)
Theorem deserialize_values (source_msg_map : pydict string bytes)
    (r : pydict string Value) :
  dict_wf source_msg_map ->
  deserialize pickle_loads source_msg_map = Ok r ->
  (forall source data, (source, data) ∈ source_msg_map ->
     exists obj, pickle_loads data = Ok obj /\ dict_get source r = Some obj)
  /\ (forall source obj, dict_get source r = Some obj ->
       exists data, (source, data) ∈ source_msg_map /\
                    pickle_loads data = Ok obj).
Proof.
  intros Hwf Hr. unfold deserialize, dict_items in Hr.
  apply deserialize_loop_ok in Hr as (vs & -> & Hk & Hvs); [|done].
  change (dict_empty ++ vs) with vs.
  assert (dict_wf vs) as Hwfr by (unfold dict_wf, dict_keys; by rewrite Hk).
  assert (forall i source,
    source_msg_map.*1 !! i = Some source -> vs.*1 !! i = Some source) as Hsame
    by (intros i source; by rewrite Hk).
  split.
  - intros source data [i Hi]%list_elem_of_lookup.
    destruct (Forall2_lookup_l _ _ _ _ _ Hvs Hi) as ([k obj] & Hv & Hload).
    exists obj. split; [done|]. apply dict_get_elem_of; [done|].
    apply list_elem_of_lookup. exists i. rewrite Hv. do 2 f_equal.
    specialize (Hsame i source). rewrite !list_lookup_fmap, Hi, Hv in Hsame.
    specialize (Hsame eq_refl). by injection Hsame.
  - intros source obj Hget.
    assert ((source, obj) ∈ vs) as [i Hi]%list_elem_of_lookup.
    { clear -Hget. induction vs as [|[k v] vs IH]; [done|].
      cbn in Hget. case_decide as Hkk.
      - injection Hget as ->. subst. apply list_elem_of_here.
      - apply list_elem_of_further. by apply IH. }
    destruct (Forall2_lookup_r _ _ _ _ _ Hvs Hi) as ([k data] & Hit & Hload).
    exists data. split; [|done]. apply list_elem_of_lookup. exists i.
    rewrite Hit. do 2 f_equal.
    specialize (Hsame i k). rewrite !list_lookup_fmap, Hi, Hit in Hsame.
    specialize (Hsame eq_refl). by injection Hsame.
Qed.

(** Decoding a message that is two messages put together (no channel in
    both) is decoding the first, then the second, and putting the results
    together; an error in the first hides the second. *)
Theorem deserialize_app (msg1 msg2 : pydict string bytes) :
  dict_wf (msg1 ++ msg2) ->
  deserialize pickle_loads (msg1 ++ msg2) =
  (r1 ← deserialize pickle_loads msg1;
   r2 ← deserialize pickle_loads msg2;
   Ok (r1 ++ r2)).
Proof.
  intros Hwf. unfold deserialize, dict_items. rewrite deserialize_loop_app.
  destruct (deserialize_loop pickle_loads msg1 dict_empty) as [r1|e] eqn:Hr1;
    csimpl; [|done].
  apply deserialize_loop_shift.
  unfold dict_wf, dict_keys in Hwf. rewrite fmap_app in Hwf.
  apply deserialize_loop_ok in Hr1 as (vs & -> & Hk & _).
  - change (dict_empty ++ vs) with vs. unfold dict_keys. by rewrite Hk.
  - by apply NoDup_app in Hwf as (? & _ & _).
Qed.
(** [deserialize] raises no error of its own: what it raises is what
    [pickle.loads] raised on the payload of one channel, and every channel
    before that one had decoded. *)
Theorem deserialize_raised (source_msg_map : pydict string bytes) (e : exn) :
  deserialize pickle_loads source_msg_map = Raise e ->
  exists pre source data post,
    source_msg_map = pre ++ (source, data) :: post /\
    Forall (fun it => is_ok (pickle_loads it.2) = true) pre /\
    pickle_loads data = Raise e.
Proof.
  unfold deserialize, dict_items. generalize (@dict_empty string Value).
  induction source_msg_map as [|[source data] items IH]; intros res Hr;
    [done|].
  cbn [deserialize_loop] in Hr.
  destruct (pickle_loads data) as [obj|e'] eqn:Hload; csimpl in Hr.
  - apply IH in Hr as (pre & source' & data' & post & -> & Hpre & Hdata).
    exists ((source, data) :: pre), source', data', post.
    split_and!; [done | | done]. constructor; [|done]. cbn. by rewrite Hload.
  - injection Hr as ->. exists [], source, data, items. by split_and!.
Qed.
End CodecMore.

(** ** More on the iteration rate limiter *)

Section RateLimiterMore.
Import RateLimiter.

Lemma steps_app {A} (xs ys : list A) st :
  steps (xs ++ ys) st =
  ((steps xs st).1 ++ (steps ys (steps xs st).2).1,
   (steps ys (steps xs st).2).2).
Proof.
  revert st. induction xs as [|x xs IH]; intros st.
  - cbn. by destruct (steps ys st).
  - cbn [app steps]. destruct (step x st) as [y st1]. rewrite IH.
    by destruct (steps xs st1).
Qed.

(** A run of calls gives back its inputs, each unchanged and in order. *)
Theorem steps_return_inputs {A : Type} (inputs : list A) (st : state) :
  (steps inputs st).1 = inputs.
Proof.
  revert st. induction inputs as [|x inputs IH]; intros st; [done|].
  cbn [steps]. destruct (step x st) as [y st1] eqn:Hstep.
  specialize (IH st1). destruct (steps inputs st1) as [ys st2].
  cbn in *. f_equal; [|done].
  unfold step in Hstep. by injection Hstep.
Qed.

Lemma step_trace {A} (x : A) st :
  trace (step x st).2 =
  trace st
  ++ (if did_show_msg st then [] else [Print note_line; Print remove_line])
  ++ [Sleep 1].
Proof.
  unfold step. destruct (did_show_msg st); cbn.
  - done.
  - by rewrite <- !app_assoc.
Qed.

(** What a run of calls does to the world: the two lines of the note are
    printed first, and only if the module has not shown them yet and there
    is a call; then each call sleeps one second, and nothing else
    happens. *)
Theorem steps_trace {A : Type} (inputs : list A) (st : state) :
  trace (steps inputs st).2 =
  trace st
  ++ (if did_show_msg st || bool_decide (length inputs = 0%nat) then []
      else [Print note_line; Print remove_line])
  ++ replicate (length inputs) (Sleep 1).
Proof.
  revert st. induction inputs as [|x inputs IH]; intros st.
  - cbn. rewrite orb_true_r. by rewrite app_nil_r.
  - rewrite steps_cons_state, IH, step_trace.
    destruct (step_shown x st) as [-> _]. cbn [orb length replicate].
    rewrite bool_decide_eq_false_2 by done. rewrite orb_false_r.
    rewrite <- !app_assoc. by destruct (did_show_msg st).
Qed.

Lemma slept_app tr1 tr2 : slept (tr1 ++ tr2) = slept tr1 + slept tr2.
Proof.
  induction tr1 as [|[line|seconds] tr1 IH]; cbn; [done | done |].
  fold (slept (tr1 ++ tr2)) (slept tr1). lia.
Qed.

Lemma step_slept {A} (x : A) st :
  slept (trace (step x st).2) = slept (trace st) + 1.
Proof.
  rewrite step_trace, !slept_app. by destruct (did_show_msg st).
Qed.

(** The rate limit: a run of [n] calls sleeps [n] seconds in all, whether
    or not the note is printed, so a pipeline that runs [step] once per
    iteration makes at most one iteration per second. *)
Theorem steps_slept {A : Type} (inputs : list A) (st : state) :
  slept (trace (steps inputs st).2) =
  slept (trace st) + Z.of_nat (length inputs).
Proof.
  revert st. induction inputs as [|x inputs IH]; intros st.
  - cbn. lia.
  - rewrite steps_cons_state, IH, step_slept. cbn [length]. lia.
Qed.

Lemma printed_app tr1 tr2 : printed (tr1 ++ tr2) = printed tr1 ++ printed tr2.
Proof. unfold printed. apply omap_app. Qed.

Lemma step_printed {A} (x : A) st :
  printed (trace (step x st).2) =
  printed (trace st)
  ++ (if did_show_msg st then [] else [note_line; remove_line]).
Proof.
  rewrite step_trace, !printed_app.
  destruct (did_show_msg st); cbn; by rewrite ?app_nil_r.
Qed.

(** What a module prints over its life: the two lines of the note, in
    order and once, by the first call that finds the flag unset; a module
    whose flag is set prints nothing more, however many calls follow. *)
Theorem steps_printed {A : Type} (inputs : list A) (st : state) :
  printed (trace (steps inputs st).2) =
  printed (trace st)
  ++ (if did_show_msg st || bool_decide (length inputs = 0%nat) then []
      else [note_line; remove_line]).
Proof.
  revert st. induction inputs as [|x inputs IH]; intros st.
  - cbn. rewrite orb_true_r. by rewrite app_nil_r.
  - rewrite steps_cons_state, IH, step_printed.
    destruct (step_shown x st) as [-> _]. cbn [orb length].
    rewrite bool_decide_eq_false_2 by done.
    rewrite orb_false_r, app_nil_r. done.
Qed.
End RateLimiterMore.

(** ** More on the test module *)

Section TestFunctionsMore.
Context `{GuestRuntime}.
Import TestFunctions.

(** On integers [two_params] and [three_params] return the sum, of any
    size (a guest [int] does not overflow); a [bool] counts as 0 or 1. *)
Theorem params_add_integers (a b c : Z) (p q : bool) :
  two_params (VInt a) (VInt b) = Ok (VInt (a + b))
  /\ three_params (VInt a) (VInt b) (VInt c) = Ok (VInt (a + b + c))
  /\ two_params (VBool p) (VInt b) = Ok (VInt ((if p then 1 else 0) + b))
  /\ two_params (VBool p) (VBool q) =
       Ok (VInt ((if p then 1 else 0) + (if q then 1 else 0))).
Proof. by split_and!. Qed.

(** On two or three sequences of one type the functions concatenate, left
    to right. *)
Theorem params_concatenate (s t u : string) (xs ys zs : list value) :
  two_params (VStr s) (VStr t) = Ok (VStr (s ++ t))
  /\ three_params (VStr s) (VStr t) (VStr u) = Ok (VStr ((s ++ t) ++ u))
  /\ two_params (VList xs) (VList ys) = Ok (VList (xs ++ ys))
  /\ three_params (VList xs) (VList ys) (VList zs) =
       Ok (VList ((xs ++ ys) ++ zs))
  /\ three_params (VTuple xs) (VTuple ys) (VTuple zs) =
       Ok (VTuple ((xs ++ ys) ++ zs)).
Proof. by split_and!. Qed.



End TestFunctionsMore.

(** ** Short payloads *)

Section PickleShort.
Import Pickle.

Lemma run_raise o u data e :
  dispatch o u data = Raise e -> run u (op o :: data) = Raise e.
Proof. intros Hd. unfold run. by rewrite load_cons, key_of_op, Hd. Qed.

Lemma batch_appends_length es :
  es <> [] -> (0 < length (batch_appends es))%nat.
Proof.
  destruct es as [|e es]; [done|]. intros _.
  unfold batch_appends. cbn [batch_appends_fuel]. cbv zeta.
  assert (exists tmp, take BATCHSIZE (e :: es) = e :: tmp) as (tmp & Htake).
  { unfold BATCHSIZE. cbn [take]. by eexists. }
  rewrite Htake. cbn [length]. rewrite length_app.
  destruct (1 <? S (length tmp))%nat.
  - cbn [length]. lia.
  - cbn [Nat.ltb Nat.leb]. rewrite length_app. cbn [length]. lia.
Qed.

Lemma save_nonempty v enc : save v = Ok enc -> (0 < length enc)%nat.
Proof.
  destruct v as [|b|n|bits|s|bs|items|items|oid]; cbn [save].
  - intros [= <-]. cbn. lia.
  - intros [= <-]. cbn. lia.
  - unfold save_long. repeat case_match; intros [= <-]; cbn [length]; lia.
  - intros [= <-]. cbn [save_float length]. lia.
  - intros [= <-]. unfold save_str. rewrite !length_app. cbn [length]. lia.
  - intros [= <-]. unfold save_bytes. rewrite !length_app. cbn [length]. lia.
  - match goal with |- mbind _ ?x = _ -> _ => destruct x as [es|]; [|done] end.
    intros [= <-]. unfold save_tuple. repeat case_match; cbn [length]; try lia;
      rewrite length_app; cbn [length]; lia.
  - match goal with |- mbind _ ?x = _ -> _ => destruct x as [es|]; [|done] end.
    intros [= <-]. unfold save_list. cbn [length]. lia.
  - done.
Qed.

Lemma encode_long_nonempty x : x <> 0 -> (0 < length (encode_long x))%nat.
Proof.
  intros Hx. unfold encode_long. rewrite (proj2 (Z.eqb_neq x 0)) by done.
  destruct (encode_long_nbytes x Hx) as [Hn _].
  case_match eqn:Htrim.
  - repeat (apply andb_prop in Htrim as [Htrim ?]).
    match goal with H : (1 <? _)%nat = true |- _ => apply Nat.ltb_lt in H end.
    rewrite length_take, length_le_bytes. lia.
  - rewrite length_le_bytes. lia.
Qed.

(** The payloads that go out without a frame. *)
Lemma save_short v enc :
  save v = Ok enc -> (length enc < 3)%nat ->
  enc = [op NONE] \/ enc = [op NEWTRUE] \/ enc = [op NEWFALSE]
  \/ (exists b, enc = [op BININT1; b]) \/ enc = [op EMPTY_TUPLE]
  \/ enc = [op EMPTY_LIST; op MEMOIZE].
Proof.
  destruct v as [|b|n|bits|s|bs|items|items|oid]; cbn [save].
  - intros [= <-] _. by left.
  - intros [= <-] _. destruct b; [right; by left | right; right; by left].
  - unfold save_long.
    repeat case_match; intros [= <-];
      rewrite ?length_app; cbn [length]; rewrite ?length_app, ?length_le_bytes;
      try lia.
    + intros _. right; right; right; left. by eexists.
    + assert (n <> 0) as Hn.
      { intros ->. repeat match goal with
                          | H : _ && _ = false |- _ => cbn in H
                          end; done. }
      pose proof (encode_long_nonempty n Hn). lia.
  - intros [= <-]. unfold save_float, be_bytes. cbn [length].
    rewrite length_rev, length_le_bytes. lia.
  - intros [= <-]. unfold save_str. rewrite !length_app. cbn [length].
    repeat case_match; cbn [length]; rewrite length_le_bytes; lia.
  - intros [= <-]. unfold save_bytes. rewrite !length_app. cbn [length].
    repeat case_match; cbn [length]; rewrite length_le_bytes; lia.
  - match goal with |- mbind _ ?x = _ -> _ => destruct x as [es|] eqn:Hes; [|done] end.
    intros [= <-]. unfold save_tuple.
    destruct es as [|e1 es]; [intros _; do 4 right; by left|].
    assert (0 < length e1)%nat as He1.
    { destruct items as [|v items]; [done|].
      destruct (save v) as [e|] eqn:Hv; [|done]. csimpl in Hes.
      match type of Hes with context [mbind _ ?x] => destruct x; [|done] end.
      injection Hes as <- <-. by eapply save_nonempty. }
    repeat case_match; cbn [length concat]; rewrite ?length_app; cbn [length]; lia.
  - match goal with |- mbind _ ?x = _ -> _ => destruct x as [es|] eqn:Hes; [|done] end.
    intros [= <-]. unfold save_list.
    destruct es as [|e1 es]; [intros _; do 5 right; done|].
    pose proof (batch_appends_length (e1 :: es) ltac:(done)).
    cbn [length]. lia.
  - done.
Qed.
End PickleShort.

(** ** More on the codec on [pickle] *)

Section PickleMore.
Import Pickle.
#[local] Arguments op : simpl never.
#[local] Arguments byte_of_opcode : simpl never.
#[local] Opaque le_bytes BATCHSIZE.

Lemma deserialize_loop_decoded (payloads : pydict string bytes)
    (msg res : pydict string value) :
  Forall2 (fun kp kv => kp.1 = kv.1 /\ loads kp.2 = Ok kv.2) payloads msg ->
  NoDup (dict_keys res ++ dict_keys msg) ->
  deserialize_loop loads payloads res = Ok (res ++ msg).
Proof.
  intros Hall. revert res.
  induction Hall as [|[k p] [k' v] payloads msg [Hk Hload] _ IH]; intros res Hnd.
  - cbn. by rewrite app_nil_r.
  - cbn [fst snd] in Hk, Hload. subst k'. cbn [deserialize_loop].
    rewrite Hload. csimpl.
    rewrite dict_set_fresh.
    + rewrite IH; [by rewrite <- app_assoc|].
      unfold dict_keys in *. rewrite fmap_app, <- app_assoc. done.
    + apply NoDup_app in Hnd as (_ & Hdis & _). intros Hin.
      apply (Hdis _ Hin). apply list_elem_of_here.
Qed.





Lemma save_socket v : has_socket v = true -> is_ok (save v) = false.
Proof.
  induction v as [|b|n|bits|s|bs|items IH|items IH|oid] using value_ind';
    try done; cbn [has_socket save]; intros Hsock.
  - match goal with
    | |- is_ok (mbind _ ?x) = false => assert (is_ok x = false) as Hx
    end.
    { induction IH as [|v items Hv _ IHitems]; [done|].
      apply orb_prop in Hsock. destruct (save v) as [e|]; csimpl; [|done].
      destruct Hsock as [Hs|Hs]; [by specialize (Hv Hs)|].
      specialize (IHitems Hs).
      match goal with
      | |- is_ok (mbind _ ?y) = false => by destruct y
      end. }
    match goal with
    | |- is_ok (mbind _ ?x) = false => by destruct x
    end.
  - match goal with
    | |- is_ok (mbind _ ?x) = false => assert (is_ok x = false) as Hx
    end.
    { induction IH as [|v items Hv _ IHitems]; [done|].
      apply orb_prop in Hsock. destruct (save v) as [e|]; csimpl; [|done].
      destruct Hsock as [Hs|Hs]; [by specialize (Hv Hs)|].
      specialize (IHitems Hs).
      match goal with
      | |- is_ok (mbind _ ?y) = false => by destruct y
      end. }
    match goal with
    | |- is_ok (mbind _ ?x) = false => by destruct x
    end.
Qed.

(** A value with a socket in it, however deep, has no encoding:
    [serialize] raises. *)
Theorem serialize_socket_inside (v : value) :
  has_socket v = true -> is_ok (serialize dumps v) = false.
Proof.
  intros Hsock%save_socket. unfold serialize, dumps.
  by destruct (save v).
Qed.

Lemma serialize_socket_inside_witness :
  is_ok (serialize dumps (VList [VInt 1; VTuple [VNone; VSocket 5]])) = false.
Proof. apply serialize_socket_inside. reflexivity. Defined.

Lemma run_frame_trailing data junk :
  Z.of_nat (length data) <= PY_SSIZE_T_MAX ->
  run initial (op PROTO :: byte_of_Z DEFAULT_PROTOCOL :: frame data ++ junk) =
  run initial (data ++ junk).
Proof.
  intros Hlen.
  rewrite (run_continue PROTO initial _ initial (frame data ++ junk))
    by reflexivity.
  unfold frame. case_match; [done|]. cbn [app]. rewrite <- app_assoc.
  rewrite (run_continue FRAME initial _ initial (data ++ junk)); [done|].
  cbn [dispatch]. rewrite read_le_bytes. csimpl.
  unfold PY_SSIZE_T_MAX in Hlen.
  rewrite le_int_le_bytes_small by (simpl; lia).
  rewrite (proj2 (Z.ltb_ge _ _)) by done.
  by rewrite Nat2Z.id, read_app.
Qed.



Lemma run_short_prefix v enc k :
  save v = Ok enc -> (length enc < 3)%nat ->
  (k < length (enc ++ [op STOP]))%nat ->
  is_ok (run initial (take k (enc ++ [op STOP]))) = false.
Proof.
  intros Hsave Hlen Hk.
  destruct (save_short v enc Hsave Hlen)
    as [Henc|[Henc|[Henc|[[b Henc]|[Henc|Henc]]]]]; subst enc;
    cbn [app length] in Hk;
    repeat (destruct k as [|k]; [reflexivity|]); lia.
Qed.

Lemma run_framed_prefix data k :
  Z.of_nat (length data) <= PY_SSIZE_T_MAX ->
  (k < 9 + length data)%nat ->
  is_ok (run initial
           (take k (op FRAME :: le_bytes 8 (Z.of_nat (length data)) ++ data)))
  = false.
Proof.
  intros Hmax Hk. destruct k as [|k]; [reflexivity|]. cbn [take].
  destruct (Nat.ltb_spec k 8) as [Hshort|Hlong].
  - rewrite run_raise with (e := UnpicklingError "pickle data was truncated");
      [done|].
    cbn [dispatch]. unfold read.
    rewrite length_take, length_app, length_le_bytes.
    by rewrite (proj2 (Nat.ltb_lt _ _)) by lia.
  - rewrite take_app_ge by (rewrite length_le_bytes; lia).
    rewrite length_le_bytes.
    rewrite run_raise with (e := UnpicklingError "pickle data was truncated");
      [done|].
    cbn [dispatch]. rewrite read_le_bytes. csimpl.
    unfold PY_SSIZE_T_MAX in Hmax.
    rewrite le_int_le_bytes_small by (simpl; lia).
    rewrite (proj2 (Z.ltb_ge _ _)) by done.
    rewrite Nat2Z.id. unfold read. rewrite length_take.
    by rewrite (proj2 (Nat.ltb_lt _ _)) by lia.
Qed.



#[local] Transparent le_bytes BATCHSIZE.
End PickleMore.

(** ** Examples on [{a: dumps(3), b: dumps(4)}] *)

Section CodecExamples.
Import Pickle.

Lemma deserialize_values_witness :
  exists obj, loads payload_4 = Ok obj /\
    dict_get "b" [("a", VInt 3); ("b", VInt 4)] = Some obj.
Proof.
  apply (proj1 (deserialize_values loads sum_msg [("a", VInt 3); ("b", VInt 4)]
                  sum_msg_wf eq_refl) "b" payload_4).
  apply list_elem_of_further, list_elem_of_here.
Defined.

Lemma deserialize_app_witness :
  deserialize loads ([("a", payload_3)] ++ [("b", payload_4)]) =
    Ok ([("a", VInt 3)] ++ [("b", VInt 4)]).
Proof.
  exact (eq_trans
           (deserialize_app loads [("a", payload_3)] [("b", payload_4)]
              sum_msg_wf)
           eq_refl).
Defined.

Lemma deserialize_raised_witness :
  exists pre source data post,
    truncated_msg = pre ++ (source, data) :: post /\
    Forall (fun it => is_ok (loads it.2) = true) pre /\
    loads data = Raise (Exn "EOFError" "Ran out of input").
Proof. apply (deserialize_raised loads truncated_msg). reflexivity. Defined.
End CodecExamples.
